(** * Statement extraction and reconciliation pipeline

    A shallow embedding of the billing-statement pipeline of the browser
    extension ([src/popup.ts], [src/background.ts] and the later revision of
    the service worker), followed by the properties proved about it.

    JavaScript strings are sequences of UTF-16 code units; a code unit is a
    natural number ([N]) below 65536 and a string is a [list N].  ASCII
    literals are written [js "..."]; the line feed and the double quote are
    written by their code units. *)

From Stdlib Require Import NArith ZArith List String Ascii Bool Lia.
From stdpp Require Import base list gmap.

Local Open Scope N_scope.

(** ** Strings of UTF-16 code units *)

(** An ASCII literal as a JavaScript string. *)
Definition js (s : string) : list N :=
  List.map N_of_ascii (list_ascii_of_string s).

(** Code units the program names. *)
Definition LF : N := 10.
Definition DQUOTE : N := 34.
Definition COMMA : N := 44.
Definition COLON : N := 58.

(** Is [c] between [lo] and [hi], both included? *)
Definition inRange (lo hi c : N) : bool := (lo <=? c) && (c <=? hi).

(** [WhiteSpace] and [LineTerminator] of ECMAScript: the class [\s] of
    regular expressions and the characters removed by [String.prototype.trim]
    and skipped by [parseFloat]. *)
Definition isWhiteSpace (c : N) : bool :=
  inRange 9 13 c || (c =? 32) || (c =? 0xA0) || (c =? 0x1680)
  || inRange 0x2000 0x200A c || (c =? 0x2028) || (c =? 0x2029)
  || (c =? 0x202F) || (c =? 0x205F) || (c =? 0x3000) || (c =? 0xFEFF).

(** ASCII digits and letters. *)
Definition isDigit (c : N) : bool := inRange 48 57 c.
Definition isUpperAZ (c : N) : bool := inRange 65 90 c.
Definition isLowerAZ (c : N) : bool := inRange 97 122 c.

(** The class [\w] (no [u] flag): ASCII letters, digits and underscore. *)
Definition isWordChar (c : N) : bool :=
  isLowerAZ c || isUpperAZ c || isDigit c || (c =? 95).

(** [Canonicalize] of a regular expression with the [i] flag and without the
    [u] flag.  A code unit below 128 is mapped to its upper case; a code unit
    from 128 on is never mapped below 128, so against the ASCII letters of the
    patterns of this program it compares as itself. *)
Definition canonicalize (c : N) : N := if isLowerAZ c then c - 32 else c.

(** Do the text character [c] and the pattern character [p] match under the
    [i] flag? *)
Definition ciEq (c p : N) : bool := canonicalize c =? canonicalize p.

(** Does the text start with the literal [pat], case-insensitively? *)
Fixpoint ciStartsWith (pat text : list N) : bool :=
  match pat, text with
  | [], _ => true
  | _ :: _, [] => false
  | p :: pat', c :: text' => ciEq c p && ciStartsWith pat' text'
  end.

(** [RegExp.prototype.test] for a literal pattern with the [i] flag. *)
Fixpoint ciIncludes (pat text : list N) : bool :=
  ciStartsWith pat text ||
  match text with
  | [] => false
  | _ :: text' => ciIncludes pat text'
  end.

(** [text.startsWith(pat)] *)
Fixpoint startsWith (pat text : list N) : bool :=
  match pat, text with
  | [], _ => true
  | _ :: _, [] => false
  | p :: pat', c :: text' => (c =? p) && startsWith pat' text'
  end.

(** The text without its longest prefix of characters of the class [f], and
    the length of that prefix. *)
Fixpoint skipWhile (f : N -> bool) (s : list N) : list N :=
  match s with
  | [] => []
  | c :: s' => if f c then skipWhile f s' else s
  end.

Fixpoint spanLength (f : N -> bool) (s : list N) : nat :=
  match s with
  | [] => O
  | c :: s' => if f c then S (spanLength f s') else O
  end.

(** [trimStart], [trimEnd] and [trim] of [String.prototype]. *)
Definition trimStart (s : list N) : list N := skipWhile isWhiteSpace s.
Definition trimEnd (s : list N) : list N := rev (skipWhile isWhiteSpace (rev s)).
Definition trim (s : list N) : list N := trimEnd (trimStart s).

(** [s.split("\n")]: the pieces between line feeds, at least one piece. *)
Fixpoint splitLines (s : list N) : list (list N) :=
  match s with
  | [] => [[]]
  | c :: s' =>
      if c =? LF then [] :: splitLines s'
      else match splitLines s' with
           | l :: ls => (c :: l) :: ls
           | [] => [[c]]
           end
  end.

(** [s.replace(/[,]/g, '')] *)
Definition stripCommas (s : list N) : list N :=
  List.filter (fun c => negb (c =? COMMA)) s.

(** ** Text normalizer *)

(** [text.replace(/â\x82¹/g, "₹")]: every occurrence, found left to right and
    not overlapping, of the three code units U+00E2 U+0082 U+00B9 becomes the
    single code unit U+20B9. *)
Fixpoint normalizeCurrencySymbols (text : list N) : list N :=
  match text with
  | [] => []
  | c :: rest =>
      match rest with
      | c1 :: c2 :: rest' =>
          if (c =? 0xE2) && (c1 =? 0x82) && (c2 =? 0xB9)
          then 0x20B9 :: normalizeCurrencySymbols rest'
          else c :: normalizeCurrencySymbols rest
      | _ => c :: normalizeCurrencySymbols rest
      end
  end.

(** ** Heuristic summary extractor *)

(** The result of [emailText.match(/summary[\s:]*\n*/i)]: index of the first
    match and its length.  The literal is tried at every position from the
    left; after it, both starred classes are greedy and nothing follows them,
    so no backtracking takes place. *)
Record RegExpMatch := { matchIndex : nat; matchLength : nat }.

(** Length of a match whose literal part is followed by [afterLiteral]: the
    seven letters, the run of [[\s:]], the run of line feeds. *)
Definition markerLength (afterLiteral : list N) : nat :=
  let n1 := spanLength (fun c => isWhiteSpace c || (c =? COLON)) afterLiteral in
  let n2 := spanLength (fun c => c =? LF) (drop n1 afterLiteral) in
  (7 + n1 + n2)%nat.

(** The first match at or after index [i], [text] being the text from [i]
    on. *)
Fixpoint matchMarkerFrom (i : nat) (text : list N) : option RegExpMatch :=
  if ciStartsWith (js "summary") text
  then Some {| matchIndex := i; matchLength := markerLength (drop 7 text) |}
  else match text with
       | [] => None
       | _ :: text' => matchMarkerFrom (S i) text'
       end.

(** [emailText.match(markerRegex)]; [None] stands for [null]. *)
Definition matchMarker (text : list N) : option RegExpMatch :=
  matchMarkerFrom 0 text.

(** The assertion [\b] between two neighbouring positions; [None] is the
    start or the end of the text. *)
Definition isWordAt (c : option N) : bool :=
  match c with Some c => isWordChar c | None => false end.

(** One side is a word character, the other is not. *)
Definition wordBoundary (before after : option N) : bool :=
  xorb (isWordAt before) (isWordAt after).

(** [s.search(/\bnote\b/i)]; [None] stands for -1. *)
Fixpoint searchNoteFrom (prev : option N) (i : nat) (s : list N) : option nat :=
  match s with
  | [] => None
  | c :: s' =>
      if wordBoundary prev (Some c) && ciStartsWith (js "note") s
         && wordBoundary (s !! 3%nat) (s !! 4%nat)
      then Some i
      else searchNoteFrom (Some c) (S i) s'
  end.

(** [summaryPart.search(/\bnote\b/i)] *)
Definition searchNote (s : list N) : option nat := searchNoteFrom None 0 s.

(** [expectedKeys]: each pattern is a list of alternatives. *)
Definition expectedKeys : list (list (list N) * list N) :=
  [ ([js "total amount due"], js "Total Amount Due");
    ([js "rewards earned"], js "Rewards Earned");
    ([js "payment due date"; js "bill due date"], js "Payment Due Date") ].

(** [exp.pattern.test(line)] *)
Definition patternTest (alternatives : list (list N)) (line : list N) : bool :=
  existsb (fun alt => ciIncludes alt line) alternatives.

(** [expectedKeys.find(exp => exp.pattern.test(line))], reduced to the key of
    the entry found. *)
Definition findExpected (line : list N) : option (list N) :=
  snd <$> List.find (fun exp => patternTest (fst exp) line) expectedKeys.

(** A [Record<string, string>] built by assignments: the properties in the
    order of their first assignment, which is the order [JSON.stringify]
    prints them in. *)
Fixpoint setProperty (obj : list (list N * list N)) (key value : list N)
  : list (list N * list N) :=
  match obj with
  | [] => [(key, value)]
  | (k, v) :: obj' =>
      if bool_decide (k = key) then (k, value) :: obj'
      else (k, v) :: setProperty obj' key value
  end.

(** [obj[key]]; [None] stands for [undefined]. *)
Fixpoint lookupProperty (obj : list (list N * list N)) (key : list N) : option (list N) :=
  match obj with
  | [] => None
  | (k, v) :: obj' => if bool_decide (k = key) then Some v else lookupProperty obj' key
  end.

(** The loop over [lines].  On a label line the inner loop looks for the next
    line of positive length; when there is one the outer loop resumes after
    it, when there is none the value is the empty string and the outer loop
    resumes on the line after the label. *)
Fixpoint scanLines (lines : list (list N)) (summary : list (list N * list N))
  : list (list N * list N) :=
  match lines with
  | [] => summary
  | line :: rest =>
      match findExpected line with
      | None => scanLines rest summary
      | Some key =>
          (fix valueLoop (candidates : list (list N)) :=
             match candidates with
             | [] => scanLines rest (setProperty summary key (normalizeCurrencySymbols []))
             | l :: candidates' =>
                 if (0 <? length l)%nat
                 then scanLines candidates' (setProperty summary key (normalizeCurrencySymbols l))
                 else valueLoop candidates'
             end) rest
      end
  end.

(** The text after the marker, trimmed and cut at the word "note". *)
Definition summarySection (emailText : list N) (m : RegExpMatch) : list N :=
  let startIndex := (matchIndex m + matchLength m)%nat in
  let summaryPart := trim (drop startIndex emailText) in
  match searchNote summaryPart with
  | Some noteIndex => trim (take noteIndex summaryPart)
  | None => summaryPart
  end.

(** [summaryPart.split("\n").map(line => line.trim()).filter(line => line.length > 0)] *)
Definition sectionLines (summaryPart : list N) : list (list N) :=
  List.filter (fun line => (0 <? length line)%nat)
    (List.map trim (splitLines summaryPart)).

(** [parseBankSummary], the same function in the three scripts. *)
Definition parseBankSummary (emailText : list N) : list (list N * list N) :=
  match matchMarker emailText with
  | None => []
  | Some m => scanLines (sectionLines (summarySection emailText m)) []
  end.

(** ** Response parser *)

(** [s.split(sep)[0]] for a non-empty separator: the text before the first
    occurrence of [sep], the whole text when there is none. *)
Fixpoint beforeFirst (sep s : list N) : list N :=
  if startsWith sep s then []
  else match s with
       | [] => []
       | c :: s' => c :: beforeFirst sep s'
       end.

(** The phrase after which the model output is cut. *)
Definition trailingMarker : list N := js "This JSON format is provided for you".

(** Values produced by [JSON.parse].  A number keeps the text of its literal;
    the members of an object are kept in the order of the text. *)
#[warnings="-register-all"] Inductive JSON : Type :=
| JNull
| JBool (b : bool)
| JNumber (literal : list N)
| JString (s : list N)
| JArray (items : list JSON)
| JObject (members : list (list N * JSON)).

(** Outcome of a parsing function: a value and the text left after it, a
    [SyntaxError], or recursion budget exhausted. *)
Inductive Parse (A : Type) : Type :=
| Parsed (v : A) (rest : list N)
| SyntaxError
| OutOfFuel.
Arguments Parsed {A} v rest.
Arguments SyntaxError {A}.
Arguments OutOfFuel {A}.

(** White space of the JSON grammar: space, tab, line feed, carriage return. *)
Definition isJSONWhiteSpace (c : N) : bool :=
  (c =? 32) || (c =? 9) || (c =? 10) || (c =? 13).

(** The text after its leading JSON white space. *)
Definition skipWS (s : list N) : list N := skipWhile isJSONWhiteSpace s.

(** Value of a hexadecimal digit. *)
Definition hexValue (c : N) : option N :=
  if isDigit c then Some (c - 48)
  else if inRange 97 102 c then Some (c - 87)
  else if inRange 65 70 c then Some (c - 55)
  else None.

(** The character a one-letter escape stands for. *)
Definition simpleEscape (c : N) : option N :=
  if c =? 34 then Some 34          (* escaped quote *)
  else if c =? 92 then Some 92     (* escaped backslash *)
  else if c =? 47 then Some 47     (* escaped solidus *)
  else if c =? 98 then Some 8      (* b: backspace *)
  else if c =? 102 then Some 12    (* f: form feed *)
  else if c =? 110 then Some 10    (* n: line feed *)
  else if c =? 114 then Some 13    (* r: carriage return *)
  else if c =? 116 then Some 9     (* t: tab *)
  else None.

(** The characters of a JSON string after its opening quote, up to and
    including the closing quote. *)
Fixpoint parseStringBody (s : list N) (acc : list N) : option (list N * list N) :=
  match s with
  | [] => None
  | c :: s' =>
      if c =? DQUOTE then Some (rev acc, s')
      else if c =? 92 then
        match s' with
        | [] => None
        | e :: s'' =>
            match simpleEscape e with
            | Some ch => parseStringBody s'' (ch :: acc)
            | None =>
                if e =? 117 then
                  match s'' with
                  | h1 :: h2 :: h3 :: h4 :: s''' =>
                      match hexValue h1, hexValue h2, hexValue h3, hexValue h4 with
                      | Some a, Some b, Some c', Some d =>
                          parseStringBody s''' (((a * 16 + b) * 16 + c') * 16 + d :: acc)
                      | _, _, _, _ => None
                      end
                  | _ => None
                  end
                else None
            end
        end
      else if c <? 32 then None
      else parseStringBody s' (c :: acc)
  end.

(** A JSON string, from its opening quote. *)
Definition parseString (s : list N) : Parse (list N) :=
  match s with
  | c :: s' =>
      if c =? DQUOTE then
        match parseStringBody s' [] with
        | Some (str, rest) => Parsed str rest
        | None => SyntaxError
        end
      else SyntaxError
  | [] => SyntaxError
  end.

(** A JSON number: an optional minus sign; a zero, or a non-zero digit and
    further digits; optionally a point and at least one digit; optionally an
    exponent mark, a sign and at least one digit. *)
Definition takeDigits (s : list N) : list N * list N :=
  (take (spanLength isDigit s) s, drop (spanLength isDigit s) s).

(** The literal of a JSON number at the head of [s]. *)
Definition parseNumber (s : list N) : Parse (list N) :=
  let (sign, s1) := match s with
                    | c :: s' => if c =? 45 then ([c], s') else ([], s)
                    | [] => ([], s)
                    end in
  let intPart := match s1 with
                 | c :: s' =>
                     if c =? 48 then Some ([c], s')
                     else if isDigit c then Some (fst (takeDigits s1), snd (takeDigits s1))
                     else None
                 | [] => None
                 end in
  match intPart with
  | None => SyntaxError
  | Some (ds, s2) =>
      let frac := match s2 with
                  | c :: s' =>
                      if c =? 46 then
                        match fst (takeDigits s') with
                        | [] => None
                        | fs => Some (c :: fs, snd (takeDigits s'))
                        end
                      else Some ([], s2)
                  | [] => Some ([], s2)
                  end in
      match frac with
      | None => SyntaxError
      | Some (fs, s3) =>
          let expo := match s3 with
                      | c :: s' =>
                          if (c =? 101) || (c =? 69) then
                            let (sg, s'') := match s' with
                                             | d :: t => if (d =? 43) || (d =? 45)
                                                         then ([d], t) else ([], s')
                                             | [] => ([], s')
                                             end in
                            match fst (takeDigits s'') with
                            | [] => None
                            | es => Some (c :: sg ++ es, snd (takeDigits s''))
                            end
                          else Some ([], s3)
                      | [] => Some ([], s3)
                      end in
          match expo with
          | None => SyntaxError
          | Some (es, s4) => Parsed (sign ++ ds ++ fs ++ es) s4
          end
      end
  end.

(** Recursive descent over values, array elements and object members.  Of two
    nested recursive calls at least one is made after a character has been
    consumed, so a budget above twice the length of the text is never
    exhausted. *)
Fixpoint parseValue (fuel : nat) (s : list N) : Parse JSON :=
  match fuel with
  | O => OutOfFuel
  | S fuel' =>
      match skipWS s with
      | [] => SyntaxError
      | c :: s' =>
          if c =? 123 then                       (* { *)
            match skipWS s' with
            | c1 :: s1 =>
                if c1 =? 125 then Parsed (JObject []) s1
                else match parseMembers fuel' (c1 :: s1) with
                     | Parsed ms rest => Parsed (JObject ms) rest
                     | SyntaxError => SyntaxError
                     | OutOfFuel => OutOfFuel
                     end
            | [] => SyntaxError
            end
          else if c =? 91 then                   (* [ *)
            match skipWS s' with
            | c1 :: s1 =>
                if c1 =? 93 then Parsed (JArray []) s1
                else match parseElements fuel' (c1 :: s1) with
                     | Parsed vs rest => Parsed (JArray vs) rest
                     | SyntaxError => SyntaxError
                     | OutOfFuel => OutOfFuel
                     end
            | [] => SyntaxError
            end
          else if c =? DQUOTE then
            match parseString (c :: s') with
            | Parsed str rest => Parsed (JString str) rest
            | SyntaxError => SyntaxError
            | OutOfFuel => OutOfFuel
            end
          else if startsWith (js "true") (c :: s') then Parsed (JBool true) (drop 4 (c :: s'))
          else if startsWith (js "false") (c :: s') then Parsed (JBool false) (drop 5 (c :: s'))
          else if startsWith (js "null") (c :: s') then Parsed JNull (drop 4 (c :: s'))
          else match parseNumber (c :: s') with
               | Parsed lit rest => Parsed (JNumber lit) rest
               | SyntaxError => SyntaxError
               | OutOfFuel => OutOfFuel
               end
      end
  end
with parseMembers (fuel : nat) (s : list N) : Parse (list (list N * JSON)) :=
  match fuel with
  | O => OutOfFuel
  | S fuel' =>
      match parseString (skipWS s) with
      | Parsed key s1 =>
          match skipWS s1 with
          | c :: s2 =>
              if c =? COLON then
                match parseValue fuel' s2 with
                | Parsed v s3 =>
                    match skipWS s3 with
                    | d :: s4 =>
                        if d =? 125 then Parsed [(key, v)] s4
                        else if d =? COMMA then
                          match parseMembers fuel' s4 with
                          | Parsed ms rest => Parsed ((key, v) :: ms) rest
                          | SyntaxError => SyntaxError
                          | OutOfFuel => OutOfFuel
                          end
                        else SyntaxError
                    | [] => SyntaxError
                    end
                | SyntaxError => SyntaxError
                | OutOfFuel => OutOfFuel
                end
              else SyntaxError
          | [] => SyntaxError
          end
      | SyntaxError => SyntaxError
      | OutOfFuel => OutOfFuel
      end
  end
with parseElements (fuel : nat) (s : list N) : Parse (list JSON) :=
  match fuel with
  | O => OutOfFuel
  | S fuel' =>
      match parseValue fuel' s with
      | Parsed v s1 =>
          match skipWS s1 with
          | d :: s2 =>
              if d =? 93 then Parsed [v] s2
              else if d =? COMMA then
                match parseElements fuel' s2 with
                | Parsed vs rest => Parsed (v :: vs) rest
                | SyntaxError => SyntaxError
                | OutOfFuel => OutOfFuel
                end
              else SyntaxError
          | [] => SyntaxError
          end
      | SyntaxError => SyntaxError
      | OutOfFuel => OutOfFuel
      end
  end.

(** [JSON.parse(text)]: one value, then only white space. *)
Definition JSON_parse (text : list N) : Parse JSON :=
  match parseValue (S (2 * length text)) text with
  | Parsed v rest =>
      match skipWS rest with
      | [] => Parsed v []
      | _ :: _ => SyntaxError
      end
  | SyntaxError => SyntaxError
  | OutOfFuel => OutOfFuel
  end.

(** [obj[key]] on a parsed object: a later member of the text with the same
    name overrides an earlier one; [None] is [undefined]. *)
Fixpoint getMember (members : list (list N * JSON)) (key : list N) : option JSON :=
  match members with
  | [] => None
  | (k, v) :: members' =>
      match getMember members' key with
      | Some v' => Some v'
      | None => if bool_decide (k = key) then Some v else None
      end
  end.

(** [v[key]] for a parsed value that is not [null]; only an object has the
    properties asked for here. *)
Definition getProperty (v : JSON) (key : list N) : option JSON :=
  match v with
  | JObject members => getMember members key
  | _ => None
  end.

(** The parsing step of [summarizeEmail] and [handlePaymentSuccess]:
    [JSON.parse(curMessage.split("This JSON format is provided for you")[0].trim())]. *)
Definition parseResponse (curMessage : list N) : Parse JSON :=
  JSON_parse (trim (beforeFirst trailingMarker curMessage)).

(** ** Number values, [parseFloat] and [toFixed]

    A Number is an IEEE 754 binary64 value.  A finite one is kept as its sign
    and the exact magnitude [mantissa * 2 ^ exponent]; the functions below
    compute with these exact values, so no rounding other than the rounding
    to binary64 that they spell out takes place. *)

(** Number values. *)
Inductive Number : Type :=
| NaN
| Infinity (negative : bool)
| Finite (negative : bool) (mantissa : N) (exponent : Z).

(** Is [num / den] at least [2 ^ k]? *)
Definition geqPow2 (num den : Z) (k : Z) : bool :=
  (if 0 <=? k then den * 2 ^ k <=? num else den <=? num * 2 ^ (- k))%Z.

(** The binary64 value nearest to the positive rational [num / den], ties to
    the even mantissa: 53 bits of precision, least exponent -1074, overflow to
    infinity from [2 ^ 1024] on. *)
Definition roundToBinary64 (negative : bool) (num den : Z) : Number :=
  let e0 := (Z.log2 num - Z.log2 den)%Z in
  let e := (if geqPow2 num den e0 then e0 else e0 - 1)%Z in
  let t := Z.max (e - 52) (-1074) in
  let n' := (if 0 <=? t then num else num * 2 ^ (- t))%Z in
  let d' := (if 0 <=? t then den * 2 ^ t else den)%Z in
  let m0 := (n' / d')%Z in
  let r := (n' mod d')%Z in
  let m := (if 2 * r <? d' then m0
            else if d' <? 2 * r then m0 + 1
            else if Z.even m0 then m0 else m0 + 1)%Z in
  if (971 <? t)%Z || ((t =? 971)%Z && (m =? 2 ^ 53)%Z)
  then Infinity negative
  else Finite negative (Z.to_N m) t.

(** The Number for the decimal [digits * 10 ^ scale]. *)
Definition decimalToNumber (negative : bool) (digits : N) (scale : Z) : Number :=
  if digits =? 0 then Finite negative 0 0
  else if (0 <=? scale)%Z
       then roundToBinary64 negative (Z.of_N digits * 10 ^ scale) 1
       else roundToBinary64 negative (Z.of_N digits) (10 ^ (- scale)).

(** The natural number written by the digits [ds]. *)
Definition digitsValue (ds : list N) : N :=
  fold_left (fun acc d => acc * 10 + (d - 48)) ds 0.

(** [parseFloat(string)]: leading white space is dropped, then the longest
    prefix that is a [StrDecimalLiteral] is converted; [NaN] when there is no
    such prefix. *)
Definition parseFloat (s : list N) : Number :=
  let s0 := trimStart s in
  let (negative, s1) := match s0 with
                        | c :: s' => if c =? 45 then (true, s')
                                     else if c =? 43 then (false, s')
                                     else (false, s0)
                        | [] => (false, s0)
                        end in
  if startsWith (js "Infinity") s1 then Infinity negative
  else
    let (intDigits, s2) := takeDigits s1 in
    let (fracDigits, s3) := match s2 with
                            | c :: s' => if c =? 46
                                         then match intDigits, fst (takeDigits s') with
                                              | [], [] => ([], s2)
                                              | _, _ => takeDigits s'
                                              end
                                         else ([], s2)
                            | [] => ([], s2)
                            end in
    match intDigits ++ fracDigits with
    | [] => NaN
    | mantissaDigits =>
        let expo := match s3 with
                    | c :: s' =>
                        if (c =? 101) || (c =? 69) then
                          let (expNegative, s'') :=
                            match s' with
                            | d :: t => if d =? 45 then (true, t)
                                        else if d =? 43 then (false, t)
                                        else (false, s')
                            | [] => (false, s')
                            end in
                          match fst (takeDigits s'') with
                          | [] => 0%Z
                          | es => if expNegative then (- Z.of_N (digitsValue es))%Z
                                  else Z.of_N (digitsValue es)
                          end
                        else 0%Z
                    | [] => 0%Z
                    end in
        decimalToNumber negative (digitsValue mantissaDigits)
          (expo - Z.of_nat (length fracDigits))
    end.

(** Decimal digits of a natural number, most significant first. *)
Fixpoint uintDigits (u : Decimal.uint) : list N :=
  match u with
  | Decimal.Nil => []
  | Decimal.D0 u' => 48 :: uintDigits u'
  | Decimal.D1 u' => 49 :: uintDigits u'
  | Decimal.D2 u' => 50 :: uintDigits u'
  | Decimal.D3 u' => 51 :: uintDigits u'
  | Decimal.D4 u' => 52 :: uintDigits u'
  | Decimal.D5 u' => 53 :: uintDigits u'
  | Decimal.D6 u' => 54 :: uintDigits u'
  | Decimal.D7 u' => 55 :: uintDigits u'
  | Decimal.D8 u' => 56 :: uintDigits u'
  | Decimal.D9 u' => 57 :: uintDigits u'
  end.

(** The decimal digits of [n]; one digit 0 for zero. *)
Definition decimalDigits (n : N) : list N := uintDigits (N.to_uint n).

(** Equality of the values [m1 * 2 ^ e1] and [m2 * 2 ^ e2]. *)
Definition sameMagnitude (m1 : N) (e1 : Z) (m2 : N) (e2 : Z) : bool :=
  let lo := Z.min e1 e2 in
  (Z.of_N m1 * 2 ^ (e1 - lo) =? Z.of_N m2 * 2 ^ (e2 - lo))%Z.

(** [Number::toString] for a finite magnitude of at least [10 ^ 21], which is
    an integer [x]: the shortest digit string [s] of [k] digits and the
    exponent [n] with [s * 10 ^ (n - k)] rounding to the Number, the nearest
    such [s] when there are several; the result is in exponential notation. *)
Definition shortestDigits (m : N) (t : Z) : option (N * nat * nat) :=
  let x := (Z.of_N m * 2 ^ t)%Z in
  let d := length (decimalDigits (Z.to_N x)) in
  let candidates k :=
    flat_map (fun n =>
      let p := (10 ^ Z.of_nat (n - k))%Z in
      List.map (fun s => (s, n, Z.abs (s * p - x)))
        (List.filter (fun s =>
             (10 ^ (Z.of_nat k - 1) <=? s)%Z && (s <? 10 ^ Z.of_nat k)%Z &&
             match roundToBinary64 false (s * p) 1 with
             | Finite _ m' t' => sameMagnitude m' t' m t
             | _ => false
             end)
           [(x / p)%Z; (x / p + 1)%Z])) [d; S d] in
  let best k :=
    fold_left (fun acc c =>
        match acc with
        | None => Some c
        | Some (s0, n0, err0) =>
            let '(s1, n1, err1) := c in
            if (err1 <? err0)%Z || ((err1 =? err0)%Z && Z.even s1)
            then Some c else acc
        end) (candidates k) None in
  fold_left (fun acc k =>
      match acc with
      | Some _ => acc
      | None => match best k with
                | Some (s, n, _) => Some (Z.to_N s, k, n)
                | None => None
                end
      end) (seq 1 17) None.

(** The digits found, as [d.ddde+n], or [de+n] for a single digit. *)
Definition exponentialNotation (m : N) (t : Z) : list N :=
  match shortestDigits m t with
  | Some (s, k, n) =>
      match decimalDigits s with
      | first :: others =>
          first :: (match others with [] => [] | _ => 46 :: others end)
          ++ js "e+" ++ decimalDigits (N.of_nat (n - 1))
      | [] => []
      end
  | None => []
  end.

(** Is the magnitude [m * 2 ^ t] at least the integer [bound]? *)
Definition atLeast (bound : Z) (m : N) (t : Z) : bool :=
  (if 0 <=? t then bound <=? Z.of_N m * 2 ^ t
   else bound * 2 ^ (- t) <=? Z.of_N m)%Z.

(** [x.toFixed(2)]: the sign, then the digits of the integer nearest to
    [100 x] with a point before the last two, padded with zeros to three
    digits; from [10 ^ 21] on, [Number::toString]. *)
Definition toFixed2 (x : Number) : list N :=
  match x with
  | NaN => js "NaN"
  | Infinity negative => (if negative then js "-" else []) ++ js "Infinity"
  | Finite negative m t =>
      let sign := if negative && negb (m =? 0) then js "-" else [] in
      if atLeast (10 ^ 21) m t
      then sign ++ exponentialNotation m t
      else
        (* the integer n nearest to 100 x, the larger one of two *)
        let n := (if 0 <=? t then Z.of_N m * 2 ^ t * 100
                  else (2 * 100 * Z.of_N m + 2 ^ (- t)) / 2 ^ (1 - t))%Z in
        let ds := decimalDigits (Z.to_N n) in
        let ds := repeat 48 (3 - length ds) ++ ds in
        sign ++ take (length ds - 2) ds ++ 46 :: drop (length ds - 2) ds
  end.

(** ** Prompt builder *)

(** The constant of the same name. *)
Definition MAX_EMAIL_CONTENT_LENGTH : nat := 4096.

(** The lower-case hexadecimal digit of value [n]. *)
Definition hexDigit (n : N) : N := if n <? 10 then 48 + n else 87 + n.

(** The escape of one code unit as a backslash, the letter u and four
    lower-case hexadecimal digits. *)
Definition unicodeEscape (c : N) : list N :=
  [92; 117; hexDigit (c / 4096 mod 16); hexDigit (c / 256 mod 16);
   hexDigit (c / 16 mod 16); hexDigit (c mod 16)].

(** The two halves of a surrogate pair. *)
Definition isHighSurrogate (c : N) : bool := inRange 0xD800 0xDBFF c.
Definition isLowSurrogate (c : N) : bool := inRange 0xDC00 0xDFFF c.

(** [QuoteJSONString] without the enclosing quotes: quote, backslash and
    control characters are escaped, a surrogate that is not part of a pair is
    written as its escape. *)
Fixpoint quoteJSONBody (s : list N) : list N :=
  match s with
  | [] => []
  | c :: s' =>
      if c =? 34 then 92 :: 34 :: quoteJSONBody s'
      else if c =? 92 then 92 :: 92 :: quoteJSONBody s'
      else if c =? 8 then 92 :: 98 :: quoteJSONBody s'
      else if c =? 9 then 92 :: 116 :: quoteJSONBody s'
      else if c =? 10 then 92 :: 110 :: quoteJSONBody s'
      else if c =? 12 then 92 :: 102 :: quoteJSONBody s'
      else if c =? 13 then 92 :: 114 :: quoteJSONBody s'
      else if c <? 32 then unicodeEscape c ++ quoteJSONBody s'
      else if isHighSurrogate c then
        match s' with
        | d :: s'' =>
            if isLowSurrogate d then c :: d :: quoteJSONBody s''
            else unicodeEscape c ++ quoteJSONBody s'
        | [] => unicodeEscape c
        end
      else if isLowSurrogate c then unicodeEscape c ++ quoteJSONBody s'
      else c :: quoteJSONBody s'
  end.

(** [QuoteJSONString] *)
Definition quoteJSONString (s : list N) : list N :=
  DQUOTE :: quoteJSONBody s ++ [DQUOTE].

(** [parts.join(sep)] *)
Fixpoint joinWith (sep : list N) (parts : list (list N)) : list N :=
  match parts with
  | [] => []
  | [p] => p
  | p :: parts' => p ++ sep ++ joinWith sep parts'
  end.

(** [JSON.stringify] of a [Record<string, string>]. *)
Definition JSON_stringify (obj : list (list N * list N)) : list N :=
  js "{"
  ++ joinWith (js ",")
       (List.map (fun kv => quoteJSONString (fst kv) ++ js ":" ++ quoteJSONString (snd kv)) obj)
  ++ js "}".

(** The template literal of [summarizeEmail] in [popup.ts]. *)
Definition popupPrompt (truncatedEmailContent summaryJSON : list N) : list N :=
  [LF]
  ++ js "    Extract the following from the inputs provided:" ++ [LF]
  ++ [LF]
  ++ js "    1. From the email below, extract only the bank name from the email content " ++ [DQUOTE] ++ truncatedEmailContent ++ [DQUOTE] ++ js ". " ++ [LF]
  ++ js "    " ++ [LF]
  ++ js "    2. From the dictionary below, extract only the Payment Due Date and Total Amount Due from Dictionary: " ++ summaryJSON ++ js ". " ++ [LF]
  ++ [LF]
  ++ js "    combine both 1 and 2 answers and return it as JSON in the following format:" ++ [LF]
  ++ js "      {" ++ [LF]
  ++ js "      " ++ [DQUOTE] ++ js "Due Date" ++ [DQUOTE] ++ js ": " ++ [DQUOTE] ++ js "DD-MM-YYYY" ++ [DQUOTE] ++ js "," ++ [LF]
  ++ js "      " ++ [DQUOTE] ++ js "Total Amount Due" ++ [DQUOTE] ++ js ": " ++ [DQUOTE] ++ js "XXXX.XX" ++ [DQUOTE] ++ js "," ++ [LF]
  ++ js "      " ++ [DQUOTE] ++ js "Bank Name" ++ [DQUOTE] ++ js ": " ++ [DQUOTE] ++ js "XXXX" ++ [DQUOTE] ++ js "," ++ [LF]
  ++ js "    }".

(** The template literal of [summarizeEmail] in the service worker (the same
    text in [background.ts] and in its later revision). *)
Definition backgroundPrompt (truncatedEmailContent summaryJSON : list N) : list N :=
  [LF]
  ++ js "    Extract the following from the inputs provided:" ++ [LF]
  ++ [LF]
  ++ js "    1. From the email below, extract only the bank name and cardholder name from the email content " ++ [DQUOTE] ++ truncatedEmailContent ++ [DQUOTE] ++ js ". " ++ [LF]
  ++ js "    2. From the dictionary below, extract only the Payment Due Date and Total Amount Due from Dictionary: " ++ summaryJSON ++ js ". " ++ [LF]
  ++ js "    Combine the results from 1 and 2 and return it as JSON in the following format:" ++ [LF]
  ++ js "    {" ++ [LF]
  ++ js "      " ++ [DQUOTE] ++ js "Due Date" ++ [DQUOTE] ++ js ": " ++ [DQUOTE] ++ js "DD-MM-YYYY" ++ [DQUOTE] ++ js "," ++ [LF]
  ++ js "      " ++ [DQUOTE] ++ js "Total Amount Due" ++ [DQUOTE] ++ js ": " ++ [DQUOTE] ++ js "XXXX.XX" ++ [DQUOTE] ++ js "," ++ [LF]
  ++ js "      " ++ [DQUOTE] ++ js "Bank Name" ++ [DQUOTE] ++ js ": " ++ [DQUOTE] ++ js "XXXX" ++ [DQUOTE] ++ js "," ++ [LF]
  ++ js "      " ++ [DQUOTE] ++ js "Card Holder Name" ++ [DQUOTE] ++ js ": " ++ [DQUOTE] ++ js "XXXX" ++ [DQUOTE] ++ [LF]
  ++ js "    }".

(** The template literal of [handlePaymentSuccess]. *)
Definition paymentSuccessPrompt (truncatedEmailContent : list N) : list N :=
  [LF]
  ++ js "    From the following email content, extract the " ++ [DQUOTE] ++ js "Total Amount Due" ++ [DQUOTE] ++ js " (numeric value) that was paid." ++ [LF]
  ++ js "    Email content: " ++ [DQUOTE] ++ truncatedEmailContent ++ [DQUOTE] ++ [LF]
  ++ js "    Return your answer as JSON in the format:" ++ [LF]
  ++ js "    { " ++ [DQUOTE] ++ js "Total Amount Due" ++ [DQUOTE] ++ js ": " ++ [DQUOTE] ++ js "XXXX.XX" ++ [DQUOTE] ++ js " }".

(** ** Completion requests and the conversation history

    [chatHistory] is one array for the whole script; the request passes that
    very array as [messages].  A session keeps its current contents together
    with the log of the message lists the completion service was called
    with. *)

(** A message of the conversation ([ChatCompletionMessageParam]). *)
Record ChatMessage := { role : list N; content : list N }.

(** The conversation history and the requests made so far. *)
Record Session := {
  chatHistory : list ChatMessage;
  requests : list (list ChatMessage)
}.

(** [chatHistory.length = 0] *)
Definition clearHistory (w : Session) : Session :=
  {| chatHistory := []; requests := requests w |}.

(** [chatHistory.push(message)] *)
Definition pushHistory (message : ChatMessage) (w : Session) : Session :=
  {| chatHistory := chatHistory w ++ [message]; requests := requests w |}.

(** [engine.chat.completions.create({ stream: true, messages: chatHistory })] *)
Definition createCompletion (w : Session) : Session :=
  {| chatHistory := chatHistory w; requests := requests w ++ [chatHistory w] |}.

(** [{ role: "user", content: prompt }] *)
Definition userMessage (prompt : list N) : ChatMessage :=
  {| role := js "user"; content := prompt |}.

(** [emailContent.length > MAX ? emailContent.substring(0, MAX) : emailContent] *)
Definition truncateEmail (emailContent : list N) : list N :=
  if (MAX_EMAIL_CONTENT_LENGTH <? length emailContent)%nat
  then take MAX_EMAIL_CONTENT_LENGTH emailContent
  else emailContent.

(** The functions below are the parts of [summarizeEmail] and
    [handlePaymentSuccess] from the truncation of the email to the call of the
    completion service, which run once [engine] is set.
    [String.prototype.toLowerCase] is a parameter. *)
Module Popup.
Section Completion.
Variable toLowerCase : list N -> list N.

Definition summarizeEmail (emailContent : list N) (w : Session) : Session :=
  let truncatedEmailContent := toLowerCase (truncateEmail emailContent) in
  let summaryDict := parseBankSummary emailContent in
  let prompt := popupPrompt truncatedEmailContent (JSON_stringify summaryDict) in
  let w := clearHistory w in
  let w := pushHistory (userMessage prompt) w in
  createCompletion w.

End Completion.
End Popup.

Module ServiceWorker.
Section Completion.
Variable toLowerCase : list N -> list N.

Definition summarizeEmail (emailContent : list N) (w : Session) : Session :=
  let truncatedEmailContent := toLowerCase (truncateEmail emailContent) in
  let summaryDict := parseBankSummary emailContent in
  let w := clearHistory w in
  let prompt := backgroundPrompt truncatedEmailContent (JSON_stringify summaryDict) in
  let w := pushHistory (userMessage prompt) w in
  createCompletion w.

Definition handlePaymentSuccess (emailContent : list N) (w : Session) : Session :=
  let prompt :=
    paymentSuccessPrompt (toLowerCase (take MAX_EMAIL_CONTENT_LENGTH emailContent)) in
  let w := clearHistory w in
  let w := pushHistory (userMessage prompt) w in
  createCompletion w.

End Completion.
End ServiceWorker.

(** A completion call of the extension and the prompt it is to send. *)
Inductive CompletionCall : Type :=
| PopupSummarize (emailContent : list N)
| WorkerSummarize (emailContent : list N)
| WorkerPaymentSuccess (emailContent : list N).

Section Calls.
Variable toLowerCase : list N -> list N.

(** The effect of one call on the session. *)
Definition performCall (c : CompletionCall) (w : Session) : Session :=
  match c with
  | PopupSummarize e => Popup.summarizeEmail toLowerCase e w
  | WorkerSummarize e => ServiceWorker.summarizeEmail toLowerCase e w
  | WorkerPaymentSuccess e => ServiceWorker.handlePaymentSuccess toLowerCase e w
  end.

(** The prompt the template of the call gives for its email. *)
Definition promptOf (c : CompletionCall) : list N :=
  match c with
  | PopupSummarize e =>
      popupPrompt (toLowerCase (truncateEmail e)) (JSON_stringify (parseBankSummary e))
  | WorkerSummarize e =>
      backgroundPrompt (toLowerCase (truncateEmail e)) (JSON_stringify (parseBankSummary e))
  | WorkerPaymentSuccess e =>
      paymentSuccessPrompt (toLowerCase (take MAX_EMAIL_CONTENT_LENGTH e))
  end.

(** Calls made one after the other. *)
Definition performCalls (cs : list CompletionCall) (w : Session) : Session :=
  fold_left (fun w c => performCall c w) cs w.

End Calls.

(** ** Engine readiness *)

(** What [waitForEngine] does that can be observed from outside. *)
Inductive EngineEvent : Type :=
| Sleep (ms : N)
| InitializeEngine
| LogReady
| LogFailed.

(** The surroundings of one run of [waitForEngine]: whether [engine] has been
    set by another task when the sleep of a given attempt is over, and whether
    [engine] is set when the awaited [initializeEngine()] has returned.  The
    model loader is taken to settle, with a model or with an error that
    [initializeEngine] catches. *)
Record EngineEnv := {
  loadedDuringSleep : nat -> bool;
  loadedByInitialize : bool
}.

(** The loop [while (!engine && attempts < 10) { await sleep(1000); attempts++ }];
    [None] when the budget of iterations is used up before the loop is left. *)
Fixpoint pollEngine (fuel : nat) (env : EngineEnv) (engine : bool) (attempts : nat)
  (trace : list EngineEvent) : option (bool * nat * list EngineEvent) :=
  if negb engine && (attempts <? 10)%nat then
    match fuel with
    | O => None
    | S fuel' =>
        pollEngine fuel' env (engine || loadedDuringSleep env attempts) (S attempts)
          (trace ++ [Sleep 1000])
    end
  else Some (engine, attempts, trace).

(** [waitForEngine], the same function in the three scripts: the loop, the
    re-initialization when [engine] is still unset, the final report.  The
    result is the final state of [engine] and the events in their order. *)
Definition waitForEngine (fuel : nat) (env : EngineEnv) (engine : bool)
  : option (bool * list EngineEvent) :=
  match pollEngine fuel env engine 0 [] with
  | None => None
  | Some (engine, attempts, trace) =>
      let (engine, trace) :=
        if negb engine
        then (loadedByInitialize env, trace ++ [InitializeEngine])
        else (engine, trace) in
      Some (engine, trace ++ [if negb engine then LogFailed else LogReady])
  end.

(** ** Record store *)

(** The object the model is asked for (interface [PaymentData]); its fields
    are strings, as the interface declares them. *)
Record PaymentData := {
  Due_Date : list N;
  Total_Amount_Due : list N;
  Bank_Name : list N
}.

(** A stored summary (interface [PaymentSummary]). *)
Record PaymentSummary := {
  id : N;
  DueDate : list N;
  totalAmountDue : list N;
  paymentStatus : list N;
  summaryTimestamp : list N;
  BankName : list N
}.

(** [summary.paymentStatus = status] *)
Definition setPaymentStatus (status : list N) (summary : PaymentSummary) : PaymentSummary :=
  {| id := id summary;
     DueDate := DueDate summary;
     totalAmountDue := totalAmountDue summary;
     paymentStatus := status;
     summaryTimestamp := summaryTimestamp summary;
     BankName := BankName summary |}.

(** The object store "summaries" of the database, created with
    [{ keyPath: "id", autoIncrement: true }]: the records by key, and the key
    generator, which starts at 1 and stays above every key in use. *)
Record ObjectStore := {
  keyGenerator : N;
  records : gmap N PaymentSummary
}.

(** The object store a new database is created with. *)
Definition emptyStore : ObjectStore := {| keyGenerator := 1; records := ∅ |}.

(** The keys from 1 up to the one before [g], ascending. *)
Definition keysBelow (g : N) : list N :=
  N.of_nat <$> seq 1 (N.to_nat g - 1).

(** [store.getAll()]: the records in ascending order of their keys. *)
Definition getAll (store : ObjectStore) : list PaymentSummary :=
  omap (fun key => records store !! key) (keysBelow (keyGenerator store)).

(** [store.add(value)] for a value without [id]: the generator provides the
    key, which is also written into the record. *)
Definition add (store : ObjectStore) (value : N -> PaymentSummary) : ObjectStore :=
  let key := keyGenerator store in
  {| keyGenerator := key + 1; records := <[key := value key]> (records store) |}.

(** [store.put(value)] for a value with [id]. *)
Definition put (store : ObjectStore) (value : PaymentSummary) : ObjectStore :=
  {| keyGenerator := N.max (keyGenerator store) (id value + 1);
     records := <[id value := value]> (records store) |}.

(** [savePaymentSummaryToIndexedDB] of [popup.ts] and of the later revision of
    the service worker, run in one read-write transaction; [now] is
    [new Date().toISOString()]. *)
Definition savePaymentSummaryToIndexedDB (paymentData : PaymentData) (now : list N)
  (store : ObjectStore) : ObjectStore :=
  let newTotal := stripCommas (Total_Amount_Due paymentData) in
  let newDue := Due_Date paymentData in
  let existingSummaries := getAll store in
  let isDuplicate :=
    existsb (fun summary =>
      let existingTotal := stripCommas (totalAmountDue summary) in
      let existingDue := DueDate summary in
      bool_decide (existingTotal = newTotal) && bool_decide (existingDue = newDue))
      existingSummaries in
  if negb isDuplicate then
    add store (fun key =>
      {| id := key;
         DueDate := newDue;
         totalAmountDue := newTotal;
         BankName := trim (Bank_Name paymentData);
         paymentStatus := js "unpaid";
         summaryTimestamp := now |})
  else store.

Module Background.

(** [savePaymentSummaryToIndexedDB] of [background.ts]. *)
Definition savePaymentSummaryToIndexedDB (paymentData : PaymentData) (now : list N)
  (store : ObjectStore) : ObjectStore :=
  add store (fun key =>
    {| id := key;
       DueDate := Due_Date paymentData;
       totalAmountDue := Total_Amount_Due paymentData;
       BankName := Bank_Name paymentData;
       paymentStatus := js "unpaid";
       summaryTimestamp := now |}).

End Background.

(** ** Reconciliation *)

(** [parseFloat(text).toFixed(2).replace(/[,]/g, '')] *)
Definition formatAmount (text : list N) : list N :=
  stripCommas (toFixed2 (parseFloat text)).

(** The body of the [forEach] of [updateMatchingRecord]. *)
Definition updateIfMatching (amount : list N) (store : ObjectStore)
  (summary : PaymentSummary) : ObjectStore :=
  let existingTotal := formatAmount (totalAmountDue summary) in
  let newTotal := formatAmount amount in
  if bool_decide (existingTotal = newTotal)
     && negb (bool_decide (paymentStatus summary = js "paid"))
  then put store (setPaymentStatus (js "paid") summary)
  else store.

(** [updateMatchingRecord]: the [getAll] and the [put] requests of the loop
    over its result belong to one read-write transaction. *)
Definition updateMatchingRecord (amount : list N) (store : ObjectStore) : ObjectStore :=
  fold_left (updateIfMatching amount) (getAll store) store.

(** The operations of the system that write to the object store. *)
Inductive StoreOperation : Type :=
| SaveSummary (paymentData : PaymentData) (now : list N)
| BackgroundSaveSummary (paymentData : PaymentData) (now : list N)
| UpdateMatching (amount : list N).

(** One operation, and a sequence of operations, on the store. *)
Definition applyOperation (store : ObjectStore) (op : StoreOperation) : ObjectStore :=
  match op with
  | SaveSummary paymentData now => savePaymentSummaryToIndexedDB paymentData now store
  | BackgroundSaveSummary paymentData now =>
      Background.savePaymentSummaryToIndexedDB paymentData now store
  | UpdateMatching amount => updateMatchingRecord amount store
  end.

Definition applyOperations (ops : list StoreOperation) (store : ObjectStore) : ObjectStore :=
  fold_left applyOperation ops store.

(** The key under which two summaries count as the same bill. *)
Definition dedupKey (summary : PaymentSummary) : list N * list N :=
  (stripCommas (totalAmountDue summary), DueDate summary).

(** ** Email body extraction *)

(** ASCII white space, which [atob] drops before it decodes. *)
Definition isAsciiWhitespace (c : N) : bool :=
  (c =? 9) || (c =? 10) || (c =? 12) || (c =? 13) || (c =? 32).

(** The six-bit value of a character of the base64 alphabet. *)
Definition sextetOf (c : N) : option N :=
  if isUpperAZ c then Some (c - 65)
  else if isLowerAZ c then Some (c - 71)
  else if isDigit c then Some (c + 4)
  else if c =? 43 then Some 62
  else if c =? 47 then Some 63
  else None.

(** A text whose length is a multiple of four loses one or two [=] at its
    end. *)
Definition removePadding (data : list N) : list N :=
  if (length data mod 4 =? 0)%nat then
    match rev data with
    | c1 :: c2 :: r =>
        if c1 =? 61 then (if c2 =? 61 then rev r else rev (c2 :: r)) else data
    | [c1] => if c1 =? 61 then [] else data
    | [] => data
    end
  else data.

(** Four sextets give three bytes; of three sextets left over the last two
    bits are dropped and two bytes remain, of two sextets the last four bits
    are dropped and one byte remains. *)
Fixpoint decodeSextets (sextets : list N) : list N :=
  match sextets with
  | a :: b :: c :: d :: rest =>
      let n := ((a * 64 + b) * 64 + c) * 64 + d in
      n / 65536 :: n / 256 mod 256 :: n mod 256 :: decodeSextets rest
  | [a; b; c] =>
      let n := ((a * 64 + b) * 64 + c) / 4 in
      [n / 256; n mod 256]
  | [a; b] => [(a * 64 + b) / 16]
  | _ => []
  end.

(** [atob(data)], the forgiving base64 decoding; [None] stands for the
    [InvalidCharacterError] it throws. *)
Definition atob (data : list N) : option (list N) :=
  let data := List.filter (fun c => negb (isAsciiWhitespace c)) data in
  let data := removePadding data in
  if (length data mod 4 =? 1)%nat then None
  else decodeSextets <$> mapM sextetOf data.

(** [text.replace(/a/g, b)] for single characters [a] and [b]. *)
Definition replaceChar (a b : N) (text : list N) : list N :=
  List.map (fun c => if c =? a then b else c) text.

(** [decodeBase64]: the URL-safe characters are mapped to the standard ones;
    an error of [atob] is caught and the empty string returned. *)
Definition decodeBase64 (encoded : list N) : list N :=
  match atob (replaceChar 95 47 (replaceChar 45 43 encoded)) with
  | Some decoded => decoded
  | None => []
  end.

(** A message part of the mail source: its MIME type, the data of its body
    and its parts, each of which may be missing. *)
#[warnings="-register-all"] Inductive Payload : Type :=
| mkPayload (mimeType : option (list N)) (bodyData : option (list N))
    (parts : option (list Payload)).

Definition mimeType (payload : Payload) : option (list N) :=
  match payload with mkPayload m _ _ => m end.

(** [payload.body?.data] *)
Definition bodyData (payload : Payload) : option (list N) :=
  match payload with mkPayload _ d _ => d end.

Definition parts (payload : Payload) : option (list Payload) :=
  match payload with mkPayload _ _ p => p end.

(** A string that is present and not empty. *)
Definition truthy (s : option (list N)) : bool :=
  match s with
  | Some (_ :: _) => true
  | _ => false
  end.

(** [m === "text/plain" || m === "text/html"] *)
Definition isTextType (m : option (list N)) : bool :=
  bool_decide (m = Some (js "text/plain")) || bool_decide (m = Some (js "text/html")).

(** [m && m.startsWith("multipart/")] *)
Definition isMultipart (m : option (list N)) : bool :=
  match m with
  | Some m => startsWith (js "multipart/") m
  | None => false
  end.

Definition noBodyFound : list N := js "No body found".
Definition noReadableContent : list N := js "No readable content".

(** [decodeBase64(payload.body.data)] *)
Definition decodedBody (payload : Payload) : list N :=
  match bodyData payload with
  | Some data => decodeBase64 data
  | None => decodeBase64 []
  end.

(** [extractEmailBody] on a payload that is an object. *)
Fixpoint extractFromPayload (payload : Payload) : list N :=
  if isTextType (mimeType payload) && truthy (bodyData payload)
  then decodedBody payload
  else
    let fromParts :=
      match payload with
      | mkPayload _ _ (Some ps) =>
          (fix loop (ps : list Payload) : option (list N) :=
             match ps with
             | [] => None
             | part :: ps' =>
                 if isTextType (mimeType part) then
                   if truthy (bodyData part) then Some (decodedBody part) else loop ps'
                 else if isMultipart (mimeType part) then
                   let innerBody := extractFromPayload part in
                   if (0 <? length innerBody)%nat
                      && negb (bool_decide (innerBody = noBodyFound))
                      && negb (bool_decide (innerBody = noReadableContent))
                   then Some innerBody
                   else loop ps'
                 else loop ps'
             end) ps
      | mkPayload _ _ None => None
      end in
    match fromParts with
    | Some body => body
    | None =>
        if truthy (bodyData payload) then decodedBody payload else noReadableContent
    end.

(** [extractEmailBody(payload)]; [None] is a payload that is [null] or
    [undefined]. *)
Definition extractEmailBody (payload : option Payload) : list N :=
  match payload with
  | None => noBodyFound
  | Some payload => extractFromPayload payload
  end.

(** The loop of [fetchEmailDetails] over the headers, each a name and a
    value: the subject and the sender found. *)
Definition scanHeaders (headers : list (list N * list N)) : list N * list N :=
  fold_left (fun found header =>
      (if bool_decide (fst header = js "Subject") then snd header else fst found,
       if bool_decide (fst header = js "From") then snd header else snd found))
    headers (js "Unknown", js "Unknown").

(** What [fetchEmailDetails] returns for a message it has fetched. *)
Module EmailDetails.
Record t := {
  subject : list N;
  content : list N;
  sender : list N
}.
End EmailDetails.

(** The part of [fetchEmailDetails] after the response has been read:
    [payload] is [emailDetails.payload] with its headers, either of which may
    be missing. *)
Definition emailDetailsOf (payload : option (option (list (list N * list N)) * Payload))
  : EmailDetails.t :=
  let headers := match payload with
                 | Some (Some headers, _) => headers
                 | _ => []
                 end in
  let body := match payload with
              | Some (_, p) => p
              | None => mkPayload None None None
              end in
  {| EmailDetails.subject := fst (scanHeaders headers);
     EmailDetails.content := extractEmailBody (Some body);
     EmailDetails.sender := snd (scanHeaders headers) |}.

(** ** Completion consumer *)

(** The loop over the stream: [delta] is [chunk.choices[0]?.delta?.content],
    appended when it is a non-empty string. *)
Definition accumulate (chunks : list (option (list N))) : list N :=
  fold_left (fun curMessage curDelta =>
      if truthy curDelta
      then curMessage ++ default [] curDelta
      else curMessage) chunks [].

(** ** Notifications *)

Record Notification := {
  title : list N;
  message : list N
}.

(** The template literal of the notification messages. *)
Definition summaryMessage (summary : PaymentSummary) : list N :=
  js "Payment Due Date: " ++ DueDate summary
  ++ js ", Total Amount Due: " ++ totalAmountDue summary
  ++ js ", Status: " ++ paymentStatus summary.

(** [notifyFromIndexedDB] of [popup.ts], once the summaries have been read:
    the notification it sends. *)
Definition notifyFromIndexedDB (store : ObjectStore) : Notification :=
  match last (getAll store) with
  | Some latestSummary =>
      {| title := js "Payment Summary"; message := summaryMessage latestSummary |}
  | None =>
      {| title := js "No Payment Summary";
         message := js "No payment summary found in IndexedDB." |}
  end.

Section Notifications.
Variable toLowerCase : list N -> list N.

(** [sendNotifications] of the later service worker, once the summaries have
    been read: the notifications it sends, in their order. *)
Definition sendNotifications (store : ObjectStore) : list Notification :=
  let unpaidSummaries :=
    List.filter (fun summary =>
      bool_decide (toLowerCase (paymentStatus summary) = js "unpaid")) (getAll store) in
  if (0 <? length unpaidSummaries)%nat then
    List.map (fun summary =>
      {| title := js "Payment Summary"; message := summaryMessage summary |})
      unpaidSummaries
  else
    [{| title := js "No Unpaid Payments";
        message := js "No unpaid payment summaries found in IndexedDB." |}].

End Notifications.

(** * Vocabulary of the properties

    Predicates the statements are written with, and the inputs of the worked
    examples. *)

(** Does the garbled rupee sequence start the text? *)
Definition garbledAtHead (text : list N) : bool :=
  match text with
  | c :: c1 :: c2 :: _ => (c =? 0xE2) && (c1 =? 0x82) && (c2 =? 0xB9)
  | _ => false
  end.

(** The email of the note-truncation example. *)
Definition noteExample : list N :=
  js "Summary:" ++ [LF] ++ js "Total Amount Due" ++ [LF] ++ js "500" ++ [LF]
  ++ js "Note: disclaimers here" ++ [LF] ++ js "Payment Due Date" ++ [LF]
  ++ js "01-01-2025".

(** The summary section of the value-skip example. *)
Definition valueSkipSection : list N :=
  js "Total Amount Due" ++ [LF] ++ [LF] ++ js "1234.56" ++ [LF]
  ++ js "Rewards Earned" ++ [LF] ++ js "10" ++ [LF].

(** [w] is [token] up to the case of ASCII letters. *)
Definition sameIgnoringCase (w token : list N) : Prop :=
  Forall2 (fun c p => canonicalize c = canonicalize p) w token.

(** A case-insensitive occurrence of [token] somewhere in [text]. *)
Definition occursIgnoringCase (token text : list N) : Prop :=
  exists pre w post, text = pre ++ w ++ post /\ sameIgnoringCase w token.

(** A literal between double quotes. *)
Definition quoted (s : string) : list N := [DQUOTE] ++ js s ++ [DQUOTE].

(** The model output of the parse-boundary example. *)
Definition boundaryExample : list N :=
  js "{" ++ quoted "Due Date" ++ js ":" ++ quoted "01-05-2025" ++ js ","
  ++ quoted "Total Amount Due" ++ js ":" ++ quoted "100.00" ++ js ","
  ++ quoted "Bank Name" ++ js ":" ++ quoted "X"
  ++ js "}This JSON format is provided for you for clarity.".

(** The record the example output stands for. *)
Definition boundaryRecord : JSON :=
  JObject [(js "Due Date", JString (js "01-05-2025"));
           (js "Total Amount Due", JString (js "100.00"));
           (js "Bank Name", JString (js "X"))].

(** Every record sits under its own [id], and the key generator is above all
    keys in use. *)
Definition storeWf (store : ObjectStore) : Prop :=
  forall key summary, records store !! key = Some summary ->
    id summary = key /\ 1 <= key /\ key < keyGenerator store.

(** The stores the operations of the system lead to from the empty store. *)
Definition reachable (store : ObjectStore) : Prop :=
  exists ops, store = applyOperations ops emptyStore.

(** What [updateMatchingRecord] makes of one record. *)
Definition reconciled (amount : list N) (summary : PaymentSummary) : PaymentSummary :=
  if bool_decide (formatAmount (totalAmountDue summary) = formatAmount amount)
     && negb (bool_decide (paymentStatus summary = js "paid"))
  then setPaymentStatus (js "paid") summary
  else summary.

(** Well-formed, with the generator at 1 or above. *)
Definition storeOk (store : ObjectStore) : Prop :=
  storeWf store /\ 1 <= keyGenerator store.

(** No two records of the store share a dedup key. *)
Definition uniqueDedupKeys (store : ObjectStore) : Prop :=
  forall key1 key2 summary1 summary2,
    records store !! key1 = Some summary1 ->
    records store !! key2 = Some summary2 ->
    dedupKey summary1 = dedupKey summary2 -> key1 = key2.

(** The operations that go through the duplicate check or do not insert. *)
Definition checksDuplicates (op : StoreOperation) : Prop :=
  match op with
  | BackgroundSaveSummary _ _ => False
  | _ => True
  end.

(** A bill as the model reports it. *)
Definition sameBill : PaymentData :=
  {| Due_Date := js "01-05-2025"; Total_Amount_Due := js "100.00"; Bank_Name := js "X" |}.

(** The store after the insert of [background.ts] has run twice on it. *)
Definition duplicateStore : ObjectStore :=
  Background.savePaymentSummaryToIndexedDB sameBill (js "2025-04-02T00:00:00.000Z")
    (Background.savePaymentSummaryToIndexedDB sameBill (js "2025-04-01T00:00:00.000Z")
       emptyStore).

(** A store with an unpaid record of amount "1,234.00", as [background.ts]
    saves it, and an unpaid record of amount "1234.01". *)
Definition commaStore : ObjectStore :=
  applyOperations
    [BackgroundSaveSummary
       {| Due_Date := js "01-05-2025"; Total_Amount_Due := js "1,234.00";
          Bank_Name := js "X" |} (js "2025-04-01T00:00:00.000Z");
     SaveSummary
       {| Due_Date := js "01-06-2025"; Total_Amount_Due := js "1234.01";
          Bank_Name := js "Y" |} (js "2025-05-01T00:00:00.000Z")]
    emptyStore.

(** The same two bills saved by the checked insert, which strips the
    separator. *)
Definition strippedStore : ObjectStore :=
  applyOperations
    [SaveSummary
       {| Due_Date := js "01-05-2025"; Total_Amount_Due := js "1,234.00";
          Bank_Name := js "X" |} (js "2025-04-01T00:00:00.000Z");
     SaveSummary
       {| Due_Date := js "01-06-2025"; Total_Amount_Due := js "1234.01";
          Bank_Name := js "Y" |} (js "2025-05-01T00:00:00.000Z")]
    emptyStore.

(** A paid record and a reachable store that holds it. *)
Definition settledBill : PaymentSummary :=
  {| id := 1; DueDate := js "01-05-2025"; totalAmountDue := js "100.00";
     paymentStatus := js "paid"; summaryTimestamp := js "2025-04-01T00:00:00.000Z";
     BankName := js "X" |}.

Definition settledStore : ObjectStore :=
  applyOperations
    [SaveSummary sameBill (js "2025-04-01T00:00:00.000Z"); UpdateMatching (js "100")]
    emptyStore.


(** ** Vocabulary of the further properties *)

(** The mis-decoded rupee sign occurs somewhere in the text. *)
Definition containsGarbled (text : list N) : Prop :=
  exists pre post, text = pre ++ [0xE2; 0x82; 0xB9] ++ post.

(** The names under which the extractor files a value. *)
Definition summaryKeys : list (list N) :=
  [js "Total Amount Due"; js "Rewards Earned"; js "Payment Due Date"].

(** No comma among the characters. *)
Definition commaFree (s : list N) : Prop := Forall (fun c => c <> COMMA) s.

(** The stages of [parseFloat], named for the proofs: the sign, the fraction
    after the integer digits, the exponent, and the value of what follows the
    sign. *)
Definition parseFloatSign (s0 : list N) : bool * list N :=
  match s0 with
  | c :: s' => if c =? 45 then (true, s')
               else if c =? 43 then (false, s')
               else (false, s0)
  | [] => (false, s0)
  end.

Definition parseFloatFraction (intDigits s2 : list N) : list N * list N :=
  match s2 with
  | c :: s' => if c =? 46
               then match intDigits, fst (takeDigits s') with
                    | [], [] => ([], s2)
                    | _, _ => takeDigits s'
                    end
               else ([], s2)
  | [] => ([], s2)
  end.

Definition parseFloatExponent (s3 : list N) : Z :=
  match s3 with
  | c :: s' =>
      if (c =? 101) || (c =? 69) then
        let (expNegative, s'') :=
          match s' with
          | d :: t => if d =? 45 then (true, t)
                      else if d =? 43 then (false, t)
                      else (false, s')
          | [] => (false, s')
          end in
        match fst (takeDigits s'') with
        | [] => 0%Z
        | es => if expNegative then (- Z.of_N (digitsValue es))%Z
                else Z.of_N (digitsValue es)
        end
      else 0%Z
  | [] => 0%Z
  end.

Definition parseFloatUnsigned (negative : bool) (s1 : list N) : Number :=
  if startsWith (js "Infinity") s1 then Infinity negative
  else
    let (intDigits, s2) := takeDigits s1 in
    let (fracDigits, s3) := parseFloatFraction intDigits s2 in
    match intDigits ++ fracDigits with
    | [] => NaN
    | mantissaDigits =>
        decimalToNumber negative (digitsValue mantissaDigits)
          (parseFloatExponent s3 - Z.of_nat (length fracDigits))
    end.

(** A character that belongs to no number: what [parseFloat] reads ends in
    front of it. *)
Definition endsNumber (c : N) : Prop :=
  isWhiteSpace c = false /\ isDigit c = false /\ ~ In c (js "+-.eEInfinity").


(** The shape of a store: the keys in use are the numbers from 1 up to the
    one before the key generator, every record carries its key as [id], and
    every status is "unpaid" or "paid". *)
Definition storeShape (store : ObjectStore) : Prop :=
  1 <= keyGenerator store
  /\ (forall key, is_Some (records store !! key) <-> 1 <= key /\ key < keyGenerator store)
  /\ (forall key summary, records store !! key = Some summary ->
        id summary = key
        /\ (paymentStatus summary = js "unpaid" \/ paymentStatus summary = js "paid")).

(** The record the checked insert stores for [paymentData] under [key]. *)
Definition newSummary (paymentData : PaymentData) (now : list N) (key : N) : PaymentSummary :=
  {| id := key;
     DueDate := Due_Date paymentData;
     totalAmountDue := stripCommas (Total_Amount_Due paymentData);
     paymentStatus := js "unpaid";
     summaryTimestamp := now;
     BankName := trim (Bank_Name paymentData) |}.

(** The paid amount matches the amount of the record. *)
Definition amountMatches (amount : list N) (summary : PaymentSummary) : bool :=
  bool_decide (formatAmount (totalAmountDue summary) = formatAmount amount).

(** [toLowerCase] on ASCII text. *)
Definition asciiLowerCase (s : list N) : list N :=
  List.map (fun c => if isUpperAZ c then c + 32 else c) s.

(** The notification for one summary, and the one sent when there is no
    unpaid summary. *)
Definition summaryNotification (summary : PaymentSummary) : Notification :=
  {| title := js "Payment Summary"; message := summaryMessage summary |}.

Definition noUnpaidNotification : Notification :=
  {| title := js "No Unpaid Payments";
     message := js "No unpaid payment summaries found in IndexedDB." |}.

(** A second bill, and a store with the first bill paid and the second
    unpaid. *)
Definition otherBill : PaymentData :=
  {| Due_Date := js "01-06-2025"; Total_Amount_Due := js "2,500.50"; Bank_Name := js " Y " |}.

Definition twoBillStore : ObjectStore :=
  applyOperations
    [SaveSummary otherBill (js "2025-05-01T00:00:00.000Z")] settledStore.

(** Base64 with the URL-safe alphabet, the encoding the mail source delivers
    bodies in: the character of a six-bit value, the six-bit values of a
    sequence of bytes, the padding that fills the last group, and the encoded
    text, with or without the padding. *)
Definition base64urlChar (i : N) : N :=
  if i <? 26 then 65 + i
  else if i <? 52 then 71 + i
  else if i <? 62 then i - 4
  else if i =? 62 then 45
  else 95.

Fixpoint encodeSextets (bytes : list N) : list N :=
  match bytes with
  | a :: b :: c :: rest =>
      let n := (a * 256 + b) * 256 + c in
      n / 262144 :: n / 4096 mod 64 :: n / 64 mod 64 :: n mod 64 :: encodeSextets rest
  | [a; b] =>
      let n := (a * 256 + b) * 4 in
      [n / 4096; n / 64 mod 64; n mod 64]
  | [a] => [a * 16 / 64; a * 16 mod 64]
  | [] => []
  end.

Fixpoint base64Padding (bytes : list N) : list N :=
  match bytes with
  | _ :: _ :: _ :: rest => base64Padding rest
  | [_; _] => [61]
  | [_] => [61; 61]
  | [] => []
  end.

Definition base64url (padded : bool) (bytes : list N) : list N :=
  List.map base64urlChar (encodeSextets bytes)
  ++ (if padded then base64Padding bytes else []).

(** The characters [decodeBase64] can decode: the letters, digits and signs
    of both alphabets, the padding and the white space [atob] drops. *)
Definition isBase64Input (c : N) : bool :=
  isUpperAZ c || isLowerAZ c || isDigit c
  || (c =? 43) || (c =? 47) || (c =? 45) || (c =? 95) || (c =? 61)
  || isAsciiWhitespace c.

(** The URL-safe character of a six-bit value, after the two replacements of
    [decodeBase64]. *)
Definition standardChar (i : N) : N :=
  (fun c => if c =? 95 then 47 else c) ((fun c => if c =? 45 then 43 else c) (base64urlChar i)).

(** UTF-8 of a text of ASCII characters and rupee signs, the bytes of which
    [atob] returns one per code unit. *)
Definition utf8 (text : list N) : list N :=
  flat_map (fun c => if c =? 0x20B9 then [0xE2; 0x82; 0xB9] else [c]) text.

Definition isAsciiOrRupee (c : N) : bool := (c <? 128) || (c =? 0x20B9).

(** Every body data of a message part and of the parts below it. *)
Fixpoint allBodyData (payload : Payload) : list (list N) :=
  match payload with
  | mkPayload _ data ps =>
      match data with Some data => [data] | None => [] end
      ++ match ps with
         | Some ps => flat_map allBodyData ps
         | None => []
         end
  end.

(** A part the loop of [extractEmailBody] passes over: not a text part with
    data, and not a multipart. *)
Definition passedOver (part : Payload) : bool :=
  negb (isTextType (mimeType part) && truthy (bodyData part))
  && negb (isMultipart (mimeType part)).

(** The value of the last header with the given name, [Unknown] when there
    is none. *)
Definition lastHeader (name : list N) (headers : list (list N * list N)) : list N :=
  match last (List.filter (fun header => bool_decide (fst header = name)) headers) with
  | Some header => snd header
  | None => js "Unknown"
  end.

(** A reply that arrives with the trailing marker cut in two. *)
Definition cutReply : list (option (list N)) :=
  [Some (js "{}This JSON format is "); None; Some (js "provided for you. Thanks")].

Definition wholeReply : list (option (list N)) :=
  [Some (js "{}This JSON format is provided for you. Thanks")].

(** A message of two alternatives below a multipart. *)
Definition alternativeMessage : Payload :=
  mkPayload (Some (js "multipart/mixed")) None
    (Some [mkPayload (Some (js "application/pdf")) (Some (js "JVBERi0")) None;
           mkPayload (Some (js "text/plain")) (Some (js "SGk")) None;
           mkPayload (Some (js "text/html")) (Some (js "PGI-SGk8L2I-")) None]).

(** A bill whose amount begins with the rupee sign, and the store after its
    insert. *)
Definition rupeeBill : PaymentData :=
  {| Due_Date := js "01-07-2025"; Total_Amount_Due := 0x20B9 :: js "1,200.00";
     Bank_Name := js "Z" |}.

Definition rupeeStore : ObjectStore :=
  applyOperations [SaveSummary rupeeBill (js "2025-06-01T00:00:00.000Z")] emptyStore.

(** * Properties *)

(** ** Text normalizer *)

(** One step of the replacement. *)
Lemma normalize_cons c rest :
  normalizeCurrencySymbols (c :: rest) =
  if garbledAtHead (c :: rest)
  then 0x20B9 :: normalizeCurrencySymbols (drop 2 rest)
  else c :: normalizeCurrencySymbols rest.
Proof.
  destruct rest as [|c1 [|c2 rest]]; reflexivity.
Qed.

(** A text with the garbled sequence at its head. *)
Lemma garbledAtHead_inv text :
  garbledAtHead text = true ->
  exists rest, text = 0xE2 :: 0x82 :: 0xB9 :: rest.
Proof.
  destruct text as [|c [|c1 [|c2 rest]]]; simpl; try discriminate.
  intros H. apply andb_prop in H as [H H2]. apply andb_prop in H as [H0 H1].
  apply N.eqb_eq in H0, H1, H2. subst. eauto.
Qed.

(** No occurrence of the garbled sequence starts the normalized text. *)
Lemma normalize_not_garbled text :
  garbledAtHead (normalizeCurrencySymbols text) = false.
Proof.
  destruct text as [|c rest]; [reflexivity|].
  rewrite normalize_cons.
  destruct (garbledAtHead (c :: rest)) eqn:Hg.
  { destruct (normalizeCurrencySymbols (drop 2 rest)) as [|? [|? ?]]; reflexivity. }
  destruct (garbledAtHead (c :: normalizeCurrencySymbols rest)) eqn:Hn; [|reflexivity].
  exfalso.
  apply garbledAtHead_inv in Hn as [tl Hn]. injection Hn as -> Hrest.
  destruct rest as [|c1 rest1]; [discriminate|].
  rewrite normalize_cons in Hrest.
  destruct (garbledAtHead (c1 :: rest1)); [discriminate|].
  injection Hrest as -> Hrest1.
  destruct rest1 as [|c2 rest2]; [discriminate|].
  rewrite normalize_cons in Hrest1.
  destruct (garbledAtHead (c2 :: rest2)); [discriminate|].
  injection Hrest1 as -> _.
  simpl in Hg. discriminate.
Qed.

(** Idempotence, by induction on a bound of the length: a replacement step
    skips three code units. *)
Lemma normalize_idempotent_length n : forall text,
  (length text <= n)%nat ->
  normalizeCurrencySymbols (normalizeCurrencySymbols text) = normalizeCurrencySymbols text.
Proof.
  induction n as [|n IH]; intros text Hlen.
  - destruct text; [reflexivity | simpl in Hlen; lia].
  - destruct text as [|c rest]; [reflexivity|].
    pose proof (normalize_not_garbled (c :: rest)) as Hng.
    rewrite normalize_cons in Hng |- *.
    destruct (garbledAtHead (c :: rest)) eqn:Hg.
    + rewrite normalize_cons, Hng. rewrite IH; [reflexivity|].
      simpl in Hlen. rewrite length_drop. lia.
    + rewrite normalize_cons, Hng. rewrite IH; [reflexivity|].
      simpl in Hlen. lia.
Qed.

(** C3. Idempotent normalization: for every text, normalizing the normalized
    text gives the normalized text again. *)
Theorem normalizeCurrencySymbols_idempotent (text : list N) :
  normalizeCurrencySymbols (normalizeCurrencySymbols text) = normalizeCurrencySymbols text.
Proof. apply (normalize_idempotent_length (length text)). lia. Qed.

(** ** Heuristic summary extractor *)

(** The two search functions against the definition of an occurrence. *)
Lemma ciStartsWith_spec pat : forall text,
  ciStartsWith pat text = true <->
  exists w post, text = w ++ post /\ sameIgnoringCase w pat.
Proof.
  induction pat as [|p pat IH]; intros text; simpl.
  - split; [|reflexivity]. intros _. exists [], text. split; [reflexivity|constructor].
  - destruct text as [|c text].
    + split; [discriminate|]. intros (w & post & Heq & Hw).
      inversion Hw; subst. discriminate.
    + rewrite andb_true_iff, IH. unfold ciEq. rewrite N.eqb_eq. split.
      * intros (Hc & w & post & -> & Hw). exists (c :: w), post.
        split; [reflexivity|]. constructor; assumption.
      * intros (w & post & Heq & Hw). inversion Hw as [|c' p' w' pat' Hc Hw']; subst.
        injection Heq as -> ->. split; [assumption|]. exists w', post. split; [reflexivity|assumption].
Qed.

Lemma ciIncludes_spec pat : forall text,
  ciIncludes pat text = true <-> occursIgnoringCase pat text.
Proof.
  induction text as [|c text IH].
  - simpl. rewrite orb_false_r, ciStartsWith_spec. split.
    + intros (w & post & Heq & Hw). exists [], w, post. split; assumption.
    + intros (pre & w & post & Heq & Hw).
      destruct pre; [|discriminate]. exists w, post. split; assumption.
  - simpl. rewrite orb_true_iff, ciStartsWith_spec, IH. split.
    + intros [(w & post & Heq & Hw) | (pre & w & post & Heq & Hw)].
      * exists [], w, post. split; assumption.
      * exists (c :: pre), w, post. split; [rewrite Heq; reflexivity | assumption].
    + intros (pre & w & post & Heq & Hw). destruct pre as [|c' pre].
      * left. exists w, post. split; assumption.
      * right. injection Heq as -> ->. exists pre, w, post. split; [reflexivity|assumption].
Qed.

(** One step of the search for the marker. *)
Lemma matchMarkerFrom_unfold i text :
  matchMarkerFrom i text =
  if ciStartsWith (js "summary") text
  then Some {| matchIndex := i; matchLength := markerLength (drop 7 text) |}
  else match text with
       | [] => None
       | _ :: text' => matchMarkerFrom (S i) text'
       end.
Proof. destruct text; reflexivity. Qed.

(** The marker is found exactly when the token occurs. *)
Lemma matchMarkerFrom_None text : forall i,
  ciIncludes (js "summary") text = false -> matchMarkerFrom i text = None.
Proof.
  induction text as [|c text IH]; intros i H; rewrite matchMarkerFrom_unfold.
  - reflexivity.
  - change (ciIncludes (js "summary") (c :: text))
      with (ciStartsWith (js "summary") (c :: text) || ciIncludes (js "summary") text) in H.
    apply orb_false_elim in H as [H1 H2]. rewrite H1. apply IH, H2.
Qed.

(** C4. Note truncation: on the example email the region is cut at the word
    "note", so no "Payment Due Date" field is produced, and "Total Amount
    Due" is extracted as "500". *)
Theorem parseBankSummary_note_truncation :
  (summarySection noteExample <$> matchMarker noteExample)
    = Some (js "Total Amount Due" ++ [LF] ++ js "500")
  /\ lookupProperty (parseBankSummary noteExample) (js "Payment Due Date") = None
  /\ lookupProperty (parseBankSummary noteExample) (js "Total Amount Due") = Some (js "500")
  /\ parseBankSummary noteExample = [(js "Total Amount Due", js "500")].
Proof. vm_compute. repeat split. Qed.

(** A label line followed by a non-empty line: that line is the value, and the
    scan goes on after it, so it is not read again as a label. *)
Lemma scanLines_consumes_value label key value rest summary :
  findExpected label = Some key -> value <> [] ->
  scanLines (label :: value :: rest) summary
    = scanLines rest (setProperty summary key (normalizeCurrencySymbols value)).
Proof.
  intros Hlabel Hvalue. cbn [scanLines]. rewrite Hlabel.
  destruct value; [contradiction|reflexivity].
Qed.

(** The lines of the example section, and what the loop makes of them. *)
Lemma scanLines_value_skip_section :
  sectionLines valueSkipSection
    = [js "Total Amount Due"; js "1234.56"; js "Rewards Earned"; js "10"]
  /\ scanLines (sectionLines valueSkipSection) []
    = [(js "Total Amount Due", js "1234.56"); (js "Rewards Earned", js "10")].
Proof. vm_compute. split; reflexivity. Qed.

(** C5. Value-skip correctness: when the text after the marker is the example
    section, the extraction yields exactly "Total Amount Due" = "1234.56" and
    "Rewards Earned" = "10": the blank line is skipped and the value line
    "1234.56" is not taken as a label or as the value of the later label. *)
Theorem parseBankSummary_value_skip (emailText : list N) (m : RegExpMatch) :
  matchMarker emailText = Some m ->
  drop (matchIndex m + matchLength m) emailText = valueSkipSection ->
  parseBankSummary emailText
    = [(js "Total Amount Due", js "1234.56"); (js "Rewards Earned", js "10")].
Proof.
  intros Hm Hsection. unfold parseBankSummary, summarySection.
  rewrite Hm, Hsection. vm_compute. reflexivity.
Qed.

(** The example section after the marker "Summary:" and a line feed. *)
Lemma parseBankSummary_value_skip_witness :
  matchMarker (js "Summary:" ++ [LF] ++ valueSkipSection)
    = Some {| matchIndex := 0; matchLength := 9 |}
  /\ parseBankSummary (js "Summary:" ++ [LF] ++ valueSkipSection)
    = [(js "Total Amount Due", js "1234.56"); (js "Rewards Earned", js "10")].
Proof.
  split; [reflexivity|].
  apply (parseBankSummary_value_skip _ {| matchIndex := 0; matchLength := 9 |});
    reflexivity.
Defined.

(** C6. No marker, no crash: on every text without a case-insensitive
    occurrence of "summary" the extractor, a total function, returns the empty
    mapping. *)
Theorem parseBankSummary_no_marker (emailText : list N) :
  ~ occursIgnoringCase (js "summary") emailText ->
  parseBankSummary emailText = [].
Proof.
  intros Hno. unfold parseBankSummary, matchMarker.
  rewrite matchMarkerFrom_None; [reflexivity|].
  destruct (ciIncludes (js "summary") emailText) eqn:H; [|reflexivity].
  exfalso. apply Hno. apply ciIncludes_spec. exact H.
Qed.

(** A text with the labels but without the marker. *)
Lemma parseBankSummary_no_marker_witness :
  ~ occursIgnoringCase (js "summary") (js "Total Amount Due" ++ [LF] ++ js "500")
  /\ parseBankSummary (js "Total Amount Due" ++ [LF] ++ js "500") = [].
Proof.
  assert (Hno : ~ occursIgnoringCase (js "summary")
                    (js "Total Amount Due" ++ [LF] ++ js "500")).
  { intros H. apply ciIncludes_spec in H. vm_compute in H. discriminate. }
  split; [exact Hno|].
  apply (parseBankSummary_no_marker _ Hno).
Defined.

(** ** Response parser *)

(** The scanning functions return no more text than they were given. *)
Lemma skipWhile_length f s : (length (skipWhile f s) <= length s)%nat.
Proof.
  induction s as [|c s IH]; simpl; [lia|]. destruct (f c); simpl; lia.
Qed.

Lemma skipWS_cons s c s' : skipWS s = c :: s' -> (length s' < length s)%nat.
Proof.
  intros H. pose proof (skipWhile_length isJSONWhiteSpace s) as Hle.
  unfold skipWS in H. rewrite H in Hle. simpl in Hle. lia.
Qed.

Lemma parseStringBody_shorter n : forall s acc str rest,
  (length s <= n)%nat ->
  parseStringBody s acc = Some (str, rest) -> (length rest < length s)%nat.
Proof.
  induction n as [|n IH]; intros s acc str rest Hn H.
  - destruct s; [discriminate | simpl in Hn; lia].
  - destruct s as [|c s']; [discriminate|]. simpl in Hn. cbn [parseStringBody] in H.
    destruct (c =? DQUOTE).
    { injection H as _ <-. simpl. lia. }
    destruct (c =? 92).
    { destruct s' as [|e s'']; [discriminate|]. simpl in Hn.
      destruct (simpleEscape e).
      { apply IH in H; [simpl; lia | lia]. }
      destruct (e =? 117); [|discriminate].
      destruct s'' as [|h1 [|h2 [|h3 [|h4 s3]]]]; try discriminate.
      destruct (hexValue h1), (hexValue h2), (hexValue h3), (hexValue h4);
        try discriminate.
      simpl in Hn. apply IH in H; [simpl; lia | lia]. }
    destruct (c <? 32); [discriminate|].
    apply IH in H; [simpl; lia | lia].
Qed.

Lemma parseString_shorter s str rest :
  parseString s = Parsed str rest -> (length rest < length s)%nat.
Proof.
  unfold parseString. destruct s as [|c s']; [discriminate|].
  destruct (c =? DQUOTE); [|discriminate].
  destruct (parseStringBody s' []) as [[str' rest']|] eqn:Hbody; [|discriminate].
  intros H. injection H as _ <-.
  apply (parseStringBody_shorter (length s')) in Hbody; [simpl; lia | lia].
Qed.

Lemma parseString_fuel s : parseString s <> OutOfFuel.
Proof.
  unfold parseString. destruct s as [|c s']; [discriminate|].
  destruct (c =? DQUOTE); [|discriminate].
  destruct (parseStringBody s' []) as [[str' rest']|]; discriminate.
Qed.

Lemma spanLength_le f s : (spanLength f s <= length s)%nat.
Proof.
  induction s as [|c s IH]; simpl; [lia|]. destruct (f c); simpl; lia.
Qed.

Lemma takeDigits_length s : (length (snd (takeDigits s)) <= length s)%nat.
Proof. unfold takeDigits. simpl. rewrite length_drop. lia. Qed.

Lemma parseNumber_fuel s : parseNumber s <> OutOfFuel.
Proof.
  unfold parseNumber.
  repeat match goal with
         | |- context [match ?x with _ => _ end] => destruct x
         end; discriminate.
Qed.

Lemma parseNumber_shorter s lit rest :
  parseNumber s = Parsed lit rest -> (length rest < length s)%nat.
Proof.
  unfold parseNumber.
  set (signed := match s with
                 | c :: s' => if c =? 45 then ([c], s') else ([], s)
                 | [] => ([], s)
                 end).
  assert (Hsigned : (length (snd signed) <= length s)%nat).
  { subst signed. destruct s as [|c s']; simpl; [lia|].
    destruct (c =? 45); simpl; lia. }
  destruct signed as [sign s1]. simpl in Hsigned.
  set (intPart := match s1 with
                  | c :: s' =>
                      if c =? 48 then Some ([c], s')
                      else if isDigit c
                           then Some (fst (takeDigits s1), snd (takeDigits s1))
                           else None
                  | [] => None
                  end).
  assert (Hint : forall ds s2, intPart = Some (ds, s2) -> (length s2 < length s1)%nat).
  { subst intPart. intros ds s2. destruct s1 as [|c s']; [discriminate|].
    destruct (c =? 48); [intros H; injection H as _ <-; simpl; lia|].
    destruct (isDigit c) eqn:Hd; [|discriminate].
    intros H. injection H as _ <-. unfold takeDigits. simpl. rewrite Hd.
    simpl. rewrite length_drop. lia. }
  destruct intPart as [[ds s2]|]; [|discriminate].
  specialize (Hint ds s2 eq_refl).
  set (frac := match s2 with
               | c :: s' =>
                   if c =? 46 then
                     match fst (takeDigits s') with
                     | [] => None
                     | fs => Some (c :: fs, snd (takeDigits s'))
                     end
                   else Some ([], s2)
               | [] => Some ([], s2)
               end).
  assert (Hfrac : forall fs s3, frac = Some (fs, s3) -> (length s3 <= length s2)%nat).
  { subst frac. intros fs s3. destruct s2 as [|c s']; [intros H; injection H as _ <-; lia|].
    destruct (c =? 46); [|intros H; injection H as _ <-; lia].
    pose proof (takeDigits_length s') as Hle.
    destruct (fst (takeDigits s')); [discriminate|].
    intros H. injection H as _ <-. rewrite length_drop. cbn [length]. lia. }
  destruct frac as [[fs s3]|]; [|discriminate].
  specialize (Hfrac fs s3 eq_refl).
  set (expo := match s3 with
               | c :: s' =>
                   if (c =? 101) || (c =? 69) then
                     let (sg, s'') := match s' with
                                      | d :: t => if (d =? 43) || (d =? 45)
                                                  then ([d], t) else ([], s')
                                      | [] => ([], s')
                                      end in
                     match fst (takeDigits s'') with
                     | [] => None
                     | es => Some (c :: sg ++ es, snd (takeDigits s''))
                     end
                   else Some ([], s3)
               | [] => Some ([], s3)
               end).
  assert (Hexpo : forall es s4, expo = Some (es, s4) -> (length s4 <= length s3)%nat).
  { subst expo. intros es s4. destruct s3 as [|c s']; [intros H; injection H as _ <-; lia|].
    destruct ((c =? 101) || (c =? 69)); [|intros H; injection H as _ <-; lia].
    set (sgn := match s' with
                | d :: t => if (d =? 43) || (d =? 45) then ([d], t) else ([], s')
                | [] => ([], s')
                end).
    assert (Hsgn : (length (snd sgn) <= length s')%nat).
    { subst sgn. destruct s' as [|d t]; simpl; [lia|].
      destruct ((d =? 43) || (d =? 45)); simpl; lia. }
    destruct sgn as [sg s'']. simpl in Hsgn.
    pose proof (takeDigits_length s'') as Hle.
    destruct (fst (takeDigits s'')); [discriminate|].
    intros H. injection H as _ <-. rewrite length_drop. cbn [length]. lia. }
  destruct expo as [[es s4]|]; [|discriminate].
  specialize (Hexpo es s4 eq_refl).
  intros H. injection H as _ <-. lia.
Qed.

(** With a budget above twice the length of the text, the three parsing
    functions return, and what they leave is shorter than what they were
    given. *)
Lemma parse_progress fuel : forall s,
  ((2 * length s < fuel)%nat ->
   parseValue fuel s <> OutOfFuel
   /\ forall v rest, parseValue fuel s = Parsed v rest -> (length rest < length s)%nat)
  /\ ((2 * length s + 1 < fuel)%nat ->
      parseMembers fuel s <> OutOfFuel
      /\ forall ms rest, parseMembers fuel s = Parsed ms rest -> (length rest < length s)%nat)
  /\ ((2 * length s + 1 < fuel)%nat ->
      parseElements fuel s <> OutOfFuel
      /\ forall vs rest, parseElements fuel s = Parsed vs rest -> (length rest < length s)%nat).
Proof.
  induction fuel as [|fuel IH]; intros s; [repeat split; lia|].
  pose proof (skipWhile_length isJSONWhiteSpace s) as Hws. fold (skipWS s) in Hws.
  split; [|split]; intros Hlen.
  - (* values *)
    cbn [parseValue]. destruct (skipWS s) as [|c s'] eqn:Hs; [split; discriminate|].
    simpl in Hws.
    destruct (c =? 123).
    { pose proof (skipWhile_length isJSONWhiteSpace s') as Hws'. fold (skipWS s') in Hws'.
      destruct (skipWS s') as [|c1 s1] eqn:Hs'; [split; discriminate|].
      destruct (c1 =? 125).
      { split; [discriminate|]. intros v rest H. injection H as _ <-. simpl in Hws'. lia. }
      destruct (IH (c1 :: s1)) as (_ & Hm & _). destruct Hm as [Hf Hp]; [lia|].
      destruct (parseMembers fuel (c1 :: s1)) as [ms rest| |] eqn:Hms.
      - split; [discriminate|]. intros v r H. injection H as _ <-.
        specialize (Hp _ _ eq_refl). lia.
      - split; discriminate.
      - contradiction. }
    destruct (c =? 91).
    { pose proof (skipWhile_length isJSONWhiteSpace s') as Hws'. fold (skipWS s') in Hws'.
      destruct (skipWS s') as [|c1 s1] eqn:Hs'; [split; discriminate|].
      destruct (c1 =? 93).
      { split; [discriminate|]. intros v rest H. injection H as _ <-. simpl in Hws'. lia. }
      destruct (IH (c1 :: s1)) as (_ & _ & He). destruct He as [Hf Hp]; [lia|].
      destruct (parseElements fuel (c1 :: s1)) as [vs rest| |] eqn:Hvs.
      - split; [discriminate|]. intros v r H. injection H as _ <-.
        specialize (Hp _ _ eq_refl). lia.
      - split; discriminate.
      - contradiction. }
    destruct (c =? DQUOTE).
    { pose proof (parseString_fuel (c :: s')) as Hf.
      destruct (parseString (c :: s')) as [str rest| |] eqn:Hstr.
      - split; [discriminate|]. intros v r H. injection H as _ <-.
        apply parseString_shorter in Hstr. cbn [length] in Hstr. lia.
      - split; discriminate.
      - contradiction. }
    destruct (startsWith (js "true") (c :: s')).
    { split; [discriminate|]. intros v r H. injection H as _ <-.
      rewrite length_drop. cbn [length]. lia. }
    destruct (startsWith (js "false") (c :: s')).
    { split; [discriminate|]. intros v r H. injection H as _ <-.
      rewrite length_drop. cbn [length]. lia. }
    destruct (startsWith (js "null") (c :: s')).
    { split; [discriminate|]. intros v r H. injection H as _ <-.
      rewrite length_drop. cbn [length]. lia. }
    pose proof (parseNumber_fuel (c :: s')) as Hf.
    destruct (parseNumber (c :: s')) as [lit rest| |] eqn:Hnum.
    + split; [discriminate|]. intros v r H. injection H as _ <-.
      apply parseNumber_shorter in Hnum. cbn [length] in Hnum. lia.
    + split; discriminate.
    + contradiction.
  - (* members *)
    cbn [parseMembers]. pose proof (parseString_fuel (skipWS s)) as Hf.
    destruct (parseString (skipWS s)) as [key s1| |] eqn:Hkey;
      [|split; discriminate|contradiction].
    apply parseString_shorter in Hkey.
    pose proof (skipWhile_length isJSONWhiteSpace s1) as Hws1. fold (skipWS s1) in Hws1.
    destruct (skipWS s1) as [|c s2]; [split; discriminate|]. simpl in Hws1.
    destruct (c =? COLON); [|split; discriminate].
    destruct (IH s2) as (Hv' & _). destruct Hv' as [Hfv Hpv]; [lia|].
    destruct (parseValue fuel s2) as [v s3| |] eqn:Hv;
      [|split; discriminate|contradiction].
    specialize (Hpv _ _ eq_refl).
    pose proof (skipWhile_length isJSONWhiteSpace s3) as Hws3. fold (skipWS s3) in Hws3.
    destruct (skipWS s3) as [|d s4]; [split; discriminate|]. simpl in Hws3.
    destruct (d =? 125).
    { split; [discriminate|]. intros ms r H. injection H as _ <-. lia. }
    destruct (d =? COMMA); [|split; discriminate].
    destruct (IH s4) as (_ & Hm' & _). destruct Hm' as [Hfm Hpm]; [lia|].
    destruct (parseMembers fuel s4) as [ms rest| |] eqn:Hms;
      [|split; discriminate|contradiction].
    split; [discriminate|]. intros ms' r H. injection H as _ <-.
    specialize (Hpm _ _ eq_refl). lia.
  - (* elements *)
    cbn [parseElements].
    destruct (IH s) as (Hv' & _). destruct Hv' as [Hfv Hpv]; [lia|].
    destruct (parseValue fuel s) as [v s1| |] eqn:Hv;
      [|split; discriminate|contradiction].
    specialize (Hpv _ _ eq_refl).
    pose proof (skipWhile_length isJSONWhiteSpace s1) as Hws1. fold (skipWS s1) in Hws1.
    destruct (skipWS s1) as [|d s2]; [split; discriminate|]. simpl in Hws1.
    destruct (d =? 93).
    { split; [discriminate|]. intros vs r H. injection H as _ <-. lia. }
    destruct (d =? COMMA); [|split; discriminate].
    destruct (IH s2) as (_ & _ & He'). destruct He' as [Hfe Hpe]; [lia|].
    destruct (parseElements fuel s2) as [vs rest| |] eqn:Hvs;
      [|split; discriminate|contradiction].
    split; [discriminate|]. intros vs' r H. injection H as _ <-.
    specialize (Hpe _ _ eq_refl). lia.
Qed.

(** [JSON.parse] is total: it returns a value or reports a syntax error. *)
Theorem JSON_parse_total (text : list N) : JSON_parse text <> OutOfFuel.
Proof.
  unfold JSON_parse.
  destruct (parse_progress (S (2 * length text)) text) as [Hv _].
  destruct Hv as [Hf _]; [lia|].
  destruct (parseValue (S (2 * length text)) text) as [v rest| |];
    [|discriminate|contradiction].
  destruct (skipWS rest); discriminate.
Qed.

(** C7. Parse boundary: on the example output the parsing step (split at the
    marker, first piece, trim, parse) succeeds with the record of the three
    fields; the sentence after the object is ignored. *)
Theorem parseResponse_boundary :
  trim (beforeFirst trailingMarker boundaryExample) =
    js "{" ++ quoted "Due Date" ++ js ":" ++ quoted "01-05-2025" ++ js ","
    ++ quoted "Total Amount Due" ++ js ":" ++ quoted "100.00" ++ js ","
    ++ quoted "Bank Name" ++ js ":" ++ quoted "X" ++ js "}"
  /\ parseResponse boundaryExample = Parsed boundaryRecord []
  /\ getProperty boundaryRecord (js "Due Date") = Some (JString (js "01-05-2025"))
  /\ getProperty boundaryRecord (js "Total Amount Due") = Some (JString (js "100.00"))
  /\ getProperty boundaryRecord (js "Bank Name") = Some (JString (js "X")).
Proof. vm_compute. repeat split. Qed.

(** ** Completion requests *)

Section CallProperties.
Variable toLowerCase : list N -> list N.

(** One call: whatever the history was, the service receives the single user
    message holding the prompt of this call, and that is the history left. *)
Lemma performCall_request (c : CompletionCall) (w : Session) :
  performCall toLowerCase c w =
  {| chatHistory := [userMessage (promptOf toLowerCase c)];
     requests := requests w ++ [[userMessage (promptOf toLowerCase c)]] |}.
Proof. destruct c; reflexivity. Qed.

(** C8. Per-call statelessness: over any sequence of completion calls, from
    any session, each message list handed to the completion service consists
    of exactly one message, of role "user", whose content is the prompt built
    from the inputs of that very call. *)
Theorem completion_requests_stateless (cs : list CompletionCall) (w : Session) :
  requests (performCalls toLowerCase cs w) =
  requests w ++ List.map (fun c => [{| role := js "user";
                                       content := promptOf toLowerCase c |}]) cs.
Proof.
  unfold performCalls. revert w.
  induction cs as [|c cs IH]; intros w; simpl.
  - rewrite app_nil_r. reflexivity.
  - rewrite IH, performCall_request. simpl. rewrite <- app_assoc. reflexivity.
Qed.

End CallProperties.

(** ** Engine readiness *)

(** The loop, entered with at most ten attempts counted and a budget for the
    attempts left, ends after [k] more sleeps with the count at ten at most. *)
Lemma pollEngine_bounded env : forall fuel engine attempts trace,
  (attempts <= 10)%nat -> (10 - attempts <= fuel)%nat ->
  exists engine' k,
    pollEngine fuel env engine attempts trace
      = Some (engine', (attempts + k)%nat, trace ++ repeat (Sleep 1000) k)
    /\ (attempts + k <= 10)%nat
    /\ (engine = true -> k = O /\ engine' = true).
Proof.
  induction fuel as [|fuel IH]; intros engine attempts trace Hle Hfuel.
  - assert (attempts = 10%nat) as -> by lia.
    exists engine, O. simpl. rewrite andb_false_r, app_nil_r.
    repeat split; auto.
  - cbn [pollEngine].
    destruct (negb engine && (attempts <? 10)%nat) eqn:Hcond.
    + apply andb_prop in Hcond as [He Hlt].
      apply Nat.ltb_lt in Hlt. apply negb_true_iff in He. subst engine.
      destruct (IH (false || loadedDuringSleep env attempts) (S attempts)
                  (trace ++ [Sleep 1000])) as (engine' & k & Heq & Hk & _); [lia|lia|].
      exists engine', (S k). rewrite Heq. split; [|split; [lia|discriminate]].
      rewrite <- app_assoc. simpl. do 3 f_equal. lia.
    + exists engine, O. rewrite app_nil_r, Nat.add_0_r.
      repeat split; auto.
Qed.

(** C9. Bounded wait: with a budget of at least ten iterations the wait
    returns, after at most ten sleeps of one second, taken only while the
    engine is unset, then at most one re-initialization, and a final report
    that the engine is ready or that it failed. *)
Theorem waitForEngine_bounded (fuel : nat) (env : EngineEnv) (engine : bool) :
  (10 <= fuel)%nat ->
  exists (engine' : bool) (polls inits : nat),
    waitForEngine fuel env engine
      = Some (engine',
              repeat (Sleep 1000) polls ++ repeat InitializeEngine inits
              ++ [if engine' then LogReady else LogFailed])
    /\ (polls <= 10)%nat /\ (inits <= 1)%nat
    /\ (engine = true -> polls = O /\ inits = O /\ engine' = true).
Proof.
  intros Hfuel. unfold waitForEngine.
  destruct (pollEngine_bounded env fuel engine 0 []) as (e1 & k & Heq & Hk & Hready);
    [lia|lia|].
  rewrite Heq. simpl in *. destruct e1; simpl.
  - exists true, k, O. simpl. repeat split; try lia; apply Hready; assumption.
  - exists (loadedByInitialize env), k, 1%nat. split.
    + rewrite <- app_assoc. simpl. destruct (loadedByInitialize env); reflexivity.
    + split; [lia|]. split; [lia|].
      intros He. destruct (Hready He) as [_ Habs]. discriminate.
Qed.

(** The longest run: the engine is never loaded and the re-initialization
    fails; ten sleeps, one re-initialization, the failure report. *)
Example waitForEngine_never_loaded :
  waitForEngine 10 {| loadedDuringSleep := fun _ => false;
                      loadedByInitialize := false |} false
  = Some (false, repeat (Sleep 1000) 10 ++ [InitializeEngine; LogFailed]).
Proof. reflexivity. Qed.

(** A run in which the engine is loaded during the third sleep. *)
Lemma waitForEngine_bounded_witness :
  (10 <= 10)%nat /\
  exists (engine' : bool) (polls inits : nat),
    waitForEngine 10 {| loadedDuringSleep := fun k => Nat.eqb k 2;
                        loadedByInitialize := false |} false
      = Some (engine',
              repeat (Sleep 1000) polls ++ repeat InitializeEngine inits
              ++ [if engine' then LogReady else LogFailed])
    /\ (polls <= 10)%nat /\ (inits <= 1)%nat
    /\ (false = true -> polls = O /\ inits = O /\ engine' = true).
Proof.
  split; [lia|]. apply (waitForEngine_bounded 10). lia.
Defined.

(** ** Record store *)

(** The keys [getAll] looks up. *)
Lemma elem_of_keysBelow key g : key ∈ keysBelow g <-> 1 <= key /\ key < g.
Proof.
  unfold keysBelow. rewrite list_elem_of_fmap. split.
  - intros (n & -> & Hn). apply elem_of_seq in Hn. lia.
  - intros [H1 H2]. exists (N.to_nat key). split; [lia|]. apply elem_of_seq. lia.
Qed.

Lemma emptyStore_wf : storeWf emptyStore.
Proof. intros key summary H. simpl in H. rewrite lookup_empty in H. discriminate. Qed.

(** In a well-formed store [getAll] returns exactly the stored records, each
    [id] once. *)
Lemma getAll_spec store summary :
  storeWf store ->
  summary ∈ getAll store <-> records store !! id summary = Some summary.
Proof.
  intros Hwf. unfold getAll. rewrite list_elem_of_omap. split.
  - intros (key & _ & Hkey). destruct (Hwf _ _ Hkey) as [-> _]. exact Hkey.
  - intros H. exists (id summary). split; [|exact H].
    apply elem_of_keysBelow. destruct (Hwf _ _ H) as (_ & H1 & H2). auto.
Qed.

Lemma getAll_lookup store key summary :
  storeWf store -> records store !! key = Some summary -> summary ∈ getAll store.
Proof.
  intros Hwf H. apply getAll_spec; [assumption|].
  destruct (Hwf _ _ H) as [-> _]. exact H.
Qed.

Lemma omap_ids_NoDup (f : N -> option PaymentSummary) (keys : list N) :
  (forall key summary, f key = Some summary -> id summary = key) ->
  NoDup keys -> NoDup (id <$> omap f keys).
Proof.
  intros Hid. induction 1 as [|key keys Hnotin Hnd IH]; simpl; [constructor|].
  destruct (f key) as [summary|] eqn:Hf; simpl; [|exact IH].
  constructor; [|exact IH].
  rewrite list_elem_of_fmap. intros (summary' & Heq & Hin).
  apply list_elem_of_omap in Hin as (key' & Hkey' & Hf').
  apply Hid in Hf, Hf'. apply Hnotin. congruence.
Qed.

Lemma getAll_ids_NoDup store : storeWf store -> NoDup (id <$> getAll store).
Proof.
  intros Hwf. apply omap_ids_NoDup.
  - intros key summary H. apply (Hwf _ _ H).
  - unfold keysBelow. apply NoDup_fmap_2; [|apply NoDup_seq].
    intros a b H. lia.
Qed.

(** *** Insertion *)

(** The records after [add]; the key it uses is free. *)
Lemma add_lookup store value key :
  records (add store value) !! key =
  if decide (keyGenerator store = key) then Some (value (keyGenerator store))
  else records store !! key.
Proof. unfold add. simpl. apply lookup_insert. Qed.

Lemma generator_fresh store :
  storeWf store -> records store !! keyGenerator store = None.
Proof.
  intros Hwf. destruct (records store !! keyGenerator store) eqn:H; [|reflexivity].
  destruct (Hwf _ _ H) as (_ & _ & Hlt). lia.
Qed.

Lemma add_wf store value :
  storeWf store -> 1 <= keyGenerator store -> (forall key, id (value key) = key) ->
  storeWf (add store value).
Proof.
  intros Hwf Hpos Hid key summary H. rewrite add_lookup in H.
  destruct (decide (keyGenerator store = key)) as [<-|Hne].
  - injection H as <-. simpl. split; [apply Hid|lia].
  - destruct (Hwf _ _ H) as (H1 & H2 & H3). simpl. split; [assumption|lia].
Qed.

(** *** Reconciliation *)

(** One step of the loop of [updateMatchingRecord]. *)
Lemma updateIfMatching_lookup amount store summary key :
  records store !! id summary = Some summary ->
  records (updateIfMatching amount store summary) !! key =
  if decide (id summary = key) then Some (reconciled amount summary)
  else records store !! key.
Proof.
  intros Hin. unfold updateIfMatching, reconciled.
  destruct (bool_decide _ && negb _); simpl.
  - apply lookup_insert.
  - destruct (decide (id summary = key)) as [<-|]; [exact Hin|reflexivity].
Qed.

Lemma updateIfMatching_generator amount store summary :
  id summary < keyGenerator store ->
  keyGenerator (updateIfMatching amount store summary) = keyGenerator store.
Proof.
  intros Hlt. unfold updateIfMatching.
  destruct (bool_decide _ && negb _); simpl; lia.
Qed.

(** The loop over a snapshot whose records are still in the store. *)
Lemma update_loop amount : forall (snapshot : list PaymentSummary) store,
  NoDup (id <$> snapshot) ->
  (forall summary, summary ∈ snapshot ->
     records store !! id summary = Some summary /\ id summary < keyGenerator store) ->
  let store' := fold_left (updateIfMatching amount) snapshot store in
  keyGenerator store' = keyGenerator store
  /\ (forall summary, summary ∈ snapshot ->
        records store' !! id summary = Some (reconciled amount summary))
  /\ (forall key, (forall summary, summary ∈ snapshot -> id summary <> key) ->
        records store' !! key = records store !! key).
Proof.
  induction snapshot as [|s snapshot IH]; intros store Hnd Hsnap; simpl.
  - split; [reflexivity|]. split; [|reflexivity].
    intros summary H. apply elem_of_nil in H. contradiction.
  - rewrite fmap_cons in Hnd. apply NoDup_cons in Hnd as [Hnotin Hnd].
    destruct (Hsnap s) as [Hs Hslt]; [left|].
    assert (Hother : forall summary, summary ∈ snapshot -> id s <> id summary).
    { intros summary Hin Heq. apply Hnotin. rewrite Heq.
      apply list_elem_of_fmap. eauto. }
    destruct (IH (updateIfMatching amount store s) Hnd) as (Hgen & Hin & Hout).
    { intros summary Hsum. rewrite updateIfMatching_lookup by exact Hs.
      rewrite updateIfMatching_generator by exact Hslt.
      destruct (decide (id s = id summary)) as [Heq|_].
      - exfalso. exact (Hother _ Hsum Heq).
      - apply Hsnap. right. exact Hsum. }
    split; [rewrite Hgen; apply updateIfMatching_generator, Hslt|]. split.
    + intros summary Hsum. apply elem_of_cons in Hsum as [->|Hsum].
      * rewrite Hout by (intros s' Hs' Heq; exact (Hother _ Hs' (eq_sym Heq))).
        rewrite updateIfMatching_lookup by exact Hs.
        destruct (decide (id s = id s)); [reflexivity|contradiction].
      * apply Hin, Hsum.
    + intros key Hkey. rewrite Hout.
      * rewrite updateIfMatching_lookup by exact Hs.
        destruct (decide (id s = key)) as [Heq|_]; [|reflexivity].
        exfalso. apply (Hkey s); [left|exact Heq].
      * intros summary Hsum. apply Hkey. right. exact Hsum.
Qed.

(** [updateMatchingRecord] as a map over the records. *)
Lemma updateMatchingRecord_records amount store :
  storeWf store ->
  keyGenerator (updateMatchingRecord amount store) = keyGenerator store
  /\ records (updateMatchingRecord amount store) = reconciled amount <$> records store.
Proof.
  intros Hwf.
  destruct (update_loop amount (getAll store) store) as (Hgen & Hin & Hout).
  { apply getAll_ids_NoDup, Hwf. }
  { intros summary Hsum. apply getAll_spec in Hsum; [|exact Hwf].
    split; [exact Hsum|]. apply (Hwf _ _ Hsum). }
  split; [exact Hgen|]. apply map_eq. intros key. rewrite lookup_fmap.
  destruct (records store !! key) as [summary|] eqn:Hkey; simpl.
  - destruct (Hwf _ _ Hkey) as [<- _].
    apply Hin. apply (getAll_lookup _ _ _ Hwf Hkey).
  - rewrite <- Hkey. apply Hout. intros summary Hsum Heq.
    apply getAll_spec in Hsum; [|exact Hwf]. congruence.
Qed.

(** What reconciliation keeps of a record. *)
Lemma reconciled_id amount summary : id (reconciled amount summary) = id summary.
Proof. unfold reconciled. destruct (bool_decide _ && negb _); reflexivity. Qed.

Lemma reconciled_dedupKey amount summary :
  dedupKey (reconciled amount summary) = dedupKey summary.
Proof. unfold reconciled. destruct (bool_decide _ && negb _); reflexivity. Qed.

Lemma reconciled_paid amount summary :
  paymentStatus summary = js "paid" -> reconciled amount summary = summary.
Proof.
  intros H. unfold reconciled.
  rewrite (bool_decide_eq_true_2 _ H), andb_false_r. reflexivity.
Qed.

Lemma updateMatchingRecord_wf amount store :
  storeWf store -> storeWf (updateMatchingRecord amount store).
Proof.
  intros Hwf key summary H.
  destruct (updateMatchingRecord_records amount store Hwf) as [Hgen Hrec].
  rewrite Hrec, lookup_fmap in H. rewrite Hgen.
  destruct (records store !! key) as [old|] eqn:Hold; [|discriminate].
  injection H as <-. rewrite reconciled_id. apply (Hwf _ _ Hold).
Qed.

(** *** Well-formedness of reachable stores *)

(** Every operation keeps the store well-formed. *)
Lemma applyOperation_ok store op : storeOk store -> storeOk (applyOperation store op).
Proof.
  intros [Hwf Hpos]. destruct op as [pd now | pd now | amount]; simpl.
  - unfold savePaymentSummaryToIndexedDB.
    destruct (negb _); [|split; assumption].
    split; [apply add_wf; auto | simpl; lia].
  - unfold Background.savePaymentSummaryToIndexedDB.
    split; [apply add_wf; auto | simpl; lia].
  - split; [apply updateMatchingRecord_wf, Hwf|].
    destruct (updateMatchingRecord_records amount store Hwf) as [-> _]. exact Hpos.
Qed.

Lemma applyOperations_ok ops : forall store,
  storeOk store -> storeOk (applyOperations ops store).
Proof.
  unfold applyOperations.
  induction ops as [|op ops IH]; intros store Hok; simpl; [exact Hok|].
  apply IH, applyOperation_ok, Hok.
Qed.

Lemma reachable_ok store : reachable store -> storeOk store.
Proof.
  intros [ops ->]. apply applyOperations_ok.
  split; [apply emptyStore_wf | simpl; lia].
Qed.

(** *** The dedup key *)

(** A second removal of the separators changes nothing. *)
Lemma stripCommas_idempotent s : stripCommas (stripCommas s) = stripCommas s.
Proof.
  unfold stripCommas. induction s as [|c s IH]; simpl; [reflexivity|].
  destruct (negb (c =? COMMA)) eqn:Hc; simpl; rewrite ?Hc, IH; reflexivity.
Qed.

(** The duplicate check finds a record exactly when one with the dedup key
    of the new data is stored. *)
Lemma isDuplicate_spec store (newTotal newDue : list N) :
  storeWf store ->
  existsb (fun summary =>
      bool_decide (stripCommas (totalAmountDue summary) = newTotal)
      && bool_decide (DueDate summary = newDue)) (getAll store) = true
  <-> exists key summary,
        records store !! key = Some summary /\ dedupKey summary = (newTotal, newDue).
Proof.
  intros Hwf. rewrite existsb_exists. split.
  - intros (summary & Hin & Hcond). apply list_elem_of_In, getAll_spec in Hin; [|exact Hwf].
    apply andb_prop in Hcond as [H1 H2].
    apply bool_decide_eq_true_1 in H1, H2.
    exists (id summary), summary. split; [exact Hin|]. unfold dedupKey. congruence.
  - intros (key & summary & Hkey & Hdk). exists summary. split.
    + apply list_elem_of_In. apply (getAll_lookup _ _ _ Hwf Hkey).
    + unfold dedupKey in Hdk. injection Hdk as H1 H2.
      rewrite (bool_decide_eq_true_2 _ H1), (bool_decide_eq_true_2 _ H2). reflexivity.
Qed.

(** An insert whose normalized pair is already stored inserts nothing. *)
Lemma save_duplicate_unchanged paymentData now store key summary :
  storeWf store ->
  records store !! key = Some summary ->
  dedupKey summary = (stripCommas (Total_Amount_Due paymentData), Due_Date paymentData) ->
  savePaymentSummaryToIndexedDB paymentData now store = store.
Proof.
  intros Hwf Hkey Hdk. unfold savePaymentSummaryToIndexedDB.
  cbv zeta. rewrite (proj2 (isDuplicate_spec store _ _ Hwf)); [reflexivity|].
  exists key, summary. split; assumption.
Qed.

(** The checked insert and the reconciliation keep the dedup keys unique. *)
Lemma save_keeps_unique paymentData now store :
  storeOk store -> uniqueDedupKeys store ->
  uniqueDedupKeys (savePaymentSummaryToIndexedDB paymentData now store).
Proof.
  intros [Hwf Hpos] Huniq. unfold savePaymentSummaryToIndexedDB. cbv zeta.
  destruct (existsb _ (getAll store)) eqn:Hdup; simpl; [exact Huniq|].
  assert (Hnone : forall key summary, records store !! key = Some summary ->
            dedupKey summary <>
            (stripCommas (Total_Amount_Due paymentData), Due_Date paymentData)).
  { intros key summary Hkey Hdk.
    rewrite (proj2 (isDuplicate_spec store _ _ Hwf)) in Hdup; [discriminate|].
    exists key, summary. split; assumption. }
  pose proof (generator_fresh store Hwf) as Hfresh.
  intros key1 key2 s1 s2 H1 H2 Hdk. rewrite add_lookup in H1, H2.
  destruct (decide (keyGenerator store = key1)) as [E1|N1];
    destruct (decide (keyGenerator store = key2)) as [E2|N2].
  - congruence.
  - exfalso. injection H1 as <-. apply (Hnone _ _ H2). rewrite <- Hdk.
    unfold dedupKey. simpl. rewrite stripCommas_idempotent. reflexivity.
  - exfalso. injection H2 as <-. apply (Hnone _ _ H1). rewrite Hdk.
    unfold dedupKey. simpl. rewrite stripCommas_idempotent. reflexivity.
  - exact (Huniq _ _ _ _ H1 H2 Hdk).
Qed.

Lemma update_keeps_unique amount store :
  storeWf store -> uniqueDedupKeys store ->
  uniqueDedupKeys (updateMatchingRecord amount store).
Proof.
  intros Hwf Huniq key1 key2 s1 s2 H1 H2 Hdk.
  destruct (updateMatchingRecord_records amount store Hwf) as [_ Hrec].
  rewrite Hrec, lookup_fmap in H1, H2.
  destruct (records store !! key1) as [o1|] eqn:Ho1; [|discriminate].
  destruct (records store !! key2) as [o2|] eqn:Ho2; [|discriminate].
  injection H1 as <-. injection H2 as <-.
  rewrite !reconciled_dedupKey in Hdk. exact (Huniq _ _ _ _ Ho1 Ho2 Hdk).
Qed.

(** Dedup invariant of the checked insert: over every sequence of inserts by
    [savePaymentSummaryToIndexedDB] of [popup.ts] and the later service
    worker, interleaved with reconciliations, from the empty store, no two
    stored records share a dedup key. *)
Theorem checked_save_dedup_invariant (ops : list StoreOperation) :
  Forall checksDuplicates ops ->
  uniqueDedupKeys (applyOperations ops emptyStore).
Proof.
  intros Hops.
  assert (H : forall store, storeOk store -> uniqueDedupKeys store ->
            uniqueDedupKeys (applyOperations ops store)).
  { unfold applyOperations.
    induction Hops as [|op ops Hop _ IH]; intros store Hok Huniq; simpl; [exact Huniq|].
    apply IH; [apply applyOperation_ok, Hok|].
    destruct op as [pd now | pd now | amount]; simpl.
    - apply save_keeps_unique; assumption.
    - contradiction.
    - apply update_keeps_unique; [apply Hok | assumption]. }
  apply H.
  - split; [apply emptyStore_wf | simpl; lia].
  - intros key1 key2 s1 s2 H1. simpl in H1. rewrite lookup_empty in H1. discriminate.
Qed.

(** C1. The insert of [background.ts] has no duplicate check: two calls with
    the same bill leave two records with the same (amount, due date) pair,
    under the keys 1 and 2. *)
Theorem background_save_stores_duplicate :
  List.map (fun summary => (id summary, dedupKey summary)) (getAll duplicateStore)
    = [(1, (js "100.00", js "01-05-2025")); (2, (js "100.00", js "01-05-2025"))]
  /\ ~ uniqueDedupKeys duplicateStore.
Proof.
  split; [vm_compute; reflexivity|].
  intros Huniq.
  specialize (Huniq 1 2
    {| id := 1; DueDate := js "01-05-2025"; totalAmountDue := js "100.00";
       paymentStatus := js "unpaid"; summaryTimestamp := js "2025-04-01T00:00:00.000Z";
       BankName := js "X" |}
    {| id := 2; DueDate := js "01-05-2025"; totalAmountDue := js "100.00";
       paymentStatus := js "unpaid"; summaryTimestamp := js "2025-04-02T00:00:00.000Z";
       BankName := js "X" |}).
  assert (H : 1 = 2) by (apply Huniq; vm_compute; reflexivity).
  discriminate.
Qed.

(** ** Reconciliation *)

(** C2. On the store with the unpaid record "1,234.00", reconciling the paid
    amount "1234" changes nothing: [parseFloat] stops at the comma, so the
    stored amount is formatted as "1.00" and the paid one as "1234.00"; the
    record stays unpaid, as does the record "1234.01". *)
Theorem updateMatchingRecord_comma_amount_unmatched :
  List.map (fun summary => (totalAmountDue summary, paymentStatus summary))
      (getAll commaStore)
    = [(js "1,234.00", js "unpaid"); (js "1234.01", js "unpaid")]
  /\ formatAmount (js "1,234.00") = js "1.00"
  /\ formatAmount (js "1234") = js "1234.00"
  /\ updateMatchingRecord (js "1234") commaStore = commaStore.
Proof. vm_compute. repeat split. Qed.

(** With the amount stored without the separator, as the checked insert
    stores it, the same reconciliation marks that record, and only that
    record, as paid. *)
Lemma updateMatchingRecord_stripped_amount_matched :
  List.map (fun summary => (totalAmountDue summary, paymentStatus summary))
      (getAll (updateMatchingRecord (js "1234") strippedStore))
    = [(js "1234.00", js "paid"); (js "1234.01", js "unpaid")].
Proof. vm_compute. reflexivity. Qed.

(** ** Paid status *)

(** One operation leaves a record as it is, or turns a record that is not
    paid into the same record with status "paid", or adds a record with
    status "unpaid" under a key that was free. *)
Lemma applyOperation_effect store op key summary' :
  storeOk store ->
  records (applyOperation store op) !! key = Some summary' ->
  records store !! key = Some summary'
  \/ (exists summary, records store !! key = Some summary
        /\ paymentStatus summary <> js "paid"
        /\ summary' = setPaymentStatus (js "paid") summary)
  \/ (records store !! key = None /\ paymentStatus summary' = js "unpaid").
Proof.
  intros [Hwf Hpos] H. pose proof (generator_fresh store Hwf) as Hfresh.
  destruct op as [pd now | pd now | amount]; unfold applyOperation in H.
  - unfold savePaymentSummaryToIndexedDB in H. cbv zeta in H.
    destruct (existsb _ (getAll store)) in H; cbn [negb] in H; [left; exact H|].
    rewrite add_lookup in H. destruct (decide (keyGenerator store = key)) as [<-|_].
    + right. right. injection H as <-. split; [exact Hfresh|reflexivity].
    + left. exact H.
  - unfold Background.savePaymentSummaryToIndexedDB in H.
    rewrite add_lookup in H. destruct (decide (keyGenerator store = key)) as [<-|_].
    + right. right. injection H as <-. split; [exact Hfresh|reflexivity].
    + left. exact H.
  - destruct (updateMatchingRecord_records amount store Hwf) as [_ Hrec].
    rewrite Hrec, lookup_fmap in H.
    destruct (records store !! key) as [summary|] eqn:Hkey; [|discriminate].
    injection H as <-. unfold reconciled.
    destruct (bool_decide (formatAmount _ = _)); simpl; [|left; reflexivity].
    destruct (bool_decide (paymentStatus summary = js "paid")) eqn:Hpaid; simpl.
    + left. reflexivity.
    + right. left. exists summary. split; [reflexivity|]. split; [|reflexivity].
      apply bool_decide_eq_false_1 in Hpaid. exact Hpaid.
Qed.

(** No operation touches a paid record. *)
Lemma applyOperation_keeps_paid store op key summary :
  storeOk store ->
  records store !! key = Some summary -> paymentStatus summary = js "paid" ->
  records (applyOperation store op) !! key = Some summary.
Proof.
  intros [Hwf Hpos] Hkey Hpaid.
  assert (Hne : keyGenerator store <> key).
  { intros <-. rewrite (generator_fresh store Hwf) in Hkey. discriminate. }
  destruct op as [pd now | pd now | amount]; unfold applyOperation.
  - unfold savePaymentSummaryToIndexedDB. cbv zeta.
    destruct (existsb _ (getAll store)); cbn [negb]; [exact Hkey|].
    rewrite add_lookup. destruct (decide (keyGenerator store = key)); [contradiction|exact Hkey].
  - unfold Background.savePaymentSummaryToIndexedDB.
    rewrite add_lookup. destruct (decide (keyGenerator store = key)); [contradiction|exact Hkey].
  - destruct (updateMatchingRecord_records amount store Hwf) as [_ Hrec].
    rewrite Hrec, lookup_fmap, Hkey. simpl. rewrite reconciled_paid by exact Hpaid.
    reflexivity.
Qed.

(** C10. Paid status is monotone: in a reachable store a record with status
    "paid" is still stored, unchanged, under the same key after any sequence
    of operations; and each single operation only keeps records, turns
    records that are not paid into paid ones, or adds unpaid records under
    new keys. *)
Theorem paid_status_monotone (store : ObjectStore) :
  reachable store ->
  (forall ops key summary,
      records store !! key = Some summary -> paymentStatus summary = js "paid" ->
      records (applyOperations ops store) !! key = Some summary)
  /\ (forall op key summary',
        records (applyOperation store op) !! key = Some summary' ->
        records store !! key = Some summary'
        \/ (exists summary, records store !! key = Some summary
              /\ paymentStatus summary <> js "paid"
              /\ summary' = setPaymentStatus (js "paid") summary)
        \/ (records store !! key = None /\ paymentStatus summary' = js "unpaid")).
Proof.
  intros Hreach. apply reachable_ok in Hreach. split.
  - intros ops. revert store Hreach. unfold applyOperations.
    induction ops as [|op ops IH]; intros store Hok key summary Hkey Hpaid; simpl.
    + exact Hkey.
    + apply IH; [apply applyOperation_ok, Hok | | exact Hpaid].
      apply applyOperation_keeps_paid; assumption.
  - intros op key summary'. apply applyOperation_effect, Hreach.
Qed.

(** The paid record of [settledStore] after three further operations. *)
Lemma paid_status_monotone_witness :
  reachable settledStore
  /\ records settledStore !! 1 = Some settledBill
  /\ records
       (applyOperations
          [UpdateMatching (js "100.00");
           BackgroundSaveSummary sameBill (js "2025-04-03T00:00:00.000Z");
           UpdateMatching (js "7")] settledStore) !! 1 = Some settledBill.
Proof.
  assert (Hreach : reachable settledStore) by (eexists; reflexivity).
  split; [exact Hreach|]. split; [vm_compute; reflexivity|].
  apply (proj1 (paid_status_monotone settledStore Hreach)).
  - vm_compute. reflexivity.
  - reflexivity.
Defined.

(** * Further properties *)

(** ** Text normalizer *)

(** What follows a prefix of a normalized text is itself a normalized text. *)
Lemma normalize_suffix n : forall text pre rest,
  (length text <= n)%nat ->
  normalizeCurrencySymbols text = pre ++ rest ->
  exists text', rest = normalizeCurrencySymbols text'.
Proof.
  induction n as [|n IH]; intros text pre rest Hlen Heq.
  - destruct text; [|simpl in Hlen; lia].
    destruct pre; [|discriminate]. exists []. symmetry. exact Heq.
  - destruct pre as [|p pre].
    + exists text. symmetry. exact Heq.
    + destruct text as [|c r]; [discriminate|]. rewrite normalize_cons in Heq.
      simpl in Hlen.
      destruct (garbledAtHead (c :: r)); injection Heq as _ Heq.
      * apply (IH _ _ _) in Heq; [exact Heq|]. rewrite length_drop. lia.
      * apply (IH _ _ _) in Heq; [exact Heq|]. lia.
Qed.

(** No occurrence of the sequence begins anywhere in a normalized text. *)
Lemma normalize_no_occurrence text pre post :
  normalizeCurrencySymbols text <> pre ++ [0xE2; 0x82; 0xB9] ++ post.
Proof.
  intros Heq.
  apply (normalize_suffix (length text)) in Heq as [text' Heq]; [|lia].
  pose proof (normalize_not_garbled text') as Hng. rewrite <- Heq in Hng.
  discriminate.
Qed.

(** X1. The normalized text never contains the mis-decoded sequence. *)
Theorem normalize_removes_all (text : list N) :
  ~ containsGarbled (normalizeCurrencySymbols text).
Proof.
  intros (pre & post & Heq). exact (normalize_no_occurrence text pre post Heq).
Qed.

Lemma normalize_unchanged text :
  ~ containsGarbled text -> normalizeCurrencySymbols text = text.
Proof.
  induction text as [|c r IH]; intros Hno; [reflexivity|].
  rewrite normalize_cons.
  destruct (garbledAtHead (c :: r)) eqn:Hg.
  - exfalso. apply Hno. apply garbledAtHead_inv in Hg as [rest ->].
    exists [], rest. reflexivity.
  - f_equal. apply IH. intros (pre & post & ->). apply Hno.
    exists (c :: pre), post. reflexivity.
Qed.

(** X2. The normalizer leaves a text as it is exactly when the text does not
    contain the mis-decoded sequence. *)
Theorem normalize_fixed_iff (text : list N) :
  normalizeCurrencySymbols text = text <-> ~ containsGarbled text.
Proof.
  split.
  - intros Heq (pre & post & Hocc). rewrite <- Heq in Hocc.
    exact (normalize_no_occurrence text pre post Hocc).
  - apply normalize_unchanged.
Qed.

(** ** Heuristic summary extractor *)

Lemma findExpected_key line key :
  findExpected line = Some key -> In key summaryKeys.
Proof.
  unfold findExpected, expectedKeys. intros H.
  cbn [List.find fst snd] in H.
  repeat match type of H with
         | context [if ?b then _ else _] => destruct b
         end; simpl in H; try discriminate; injection H as <-; simpl; auto.
Qed.

(** A property of the summary that every assignment keeps holds of the result
    of the loop. *)
Lemma scanLines_invariant (P : list (list N * list N) -> Prop) :
  (forall summary label key value,
      findExpected label = Some key -> P summary ->
      P (setProperty summary key (normalizeCurrencySymbols value))) ->
  forall lines summary, P summary -> P (scanLines lines summary).
Proof.
  intros Hstep lines.
  assert (H : forall n lines summary, (length lines <= n)%nat ->
                P summary -> P (scanLines lines summary)).
  { clear lines. induction n as [|n IH]; intros lines summary Hlen HP.
    - destruct lines; [exact HP | simpl in Hlen; lia].
    - destruct lines as [|line rest]; [exact HP|]. simpl in Hlen.
      cbn [scanLines]. destruct (findExpected line) as [key|] eqn:Hkey.
      + assert (Hloop : forall candidates, (length candidates <= length rest)%nat ->
          P ((fix valueLoop (candidates : list (list N)) :=
                match candidates with
                | [] => scanLines rest
                          (setProperty summary key (normalizeCurrencySymbols []))
                | l :: candidates' =>
                    if (0 <? length l)%nat
                    then scanLines candidates'
                           (setProperty summary key (normalizeCurrencySymbols l))
                    else valueLoop candidates'
                end) candidates)).
        { induction candidates as [|l candidates IHc]; intros Hc.
          - apply IH; [lia|]. apply (Hstep _ line); assumption.
          - simpl in Hc. destruct (0 <? length l)%nat.
            + apply IH; [lia|]. apply (Hstep _ line); assumption.
            + apply IHc. lia. }
        apply Hloop. lia.
      + apply IH; [lia|exact HP]. }
  intros summary. apply (H (length lines)). lia.
Qed.

Lemma setProperty_keys obj key value k :
  In k (List.map fst (setProperty obj key value)) <->
  k = key \/ In k (List.map fst obj).
Proof.
  induction obj as [|[k0 v0] obj IH]; simpl.
  - split; [intros [H|[]]; auto | intros [H|[]]; auto].
  - destruct (bool_decide (k0 = key)) eqn:Hk; simpl.
    + apply bool_decide_eq_true_1 in Hk. subst. intuition congruence.
    + rewrite IH. intuition congruence.
Qed.

Lemma setProperty_NoDup obj key value :
  List.NoDup (List.map fst obj) -> List.NoDup (List.map fst (setProperty obj key value)).
Proof.
  induction obj as [|[k0 v0] obj IH]; simpl; intros Hnd.
  - constructor; [intros []|constructor].
  - inversion Hnd as [|? ? Hnotin Hnd']; subst.
    destruct (bool_decide (k0 = key)) eqn:Hk; simpl.
    + constructor; assumption.
    + apply bool_decide_eq_false_1 in Hk. constructor; [|apply IH, Hnd'].
      rewrite setProperty_keys. intros [->|Hin]; [congruence|contradiction].
Qed.

(** X3. The extractor files values under the three names only, each name at
    most once. *)
Theorem parseBankSummary_keys (emailText : list N) :
  (forall key, In key (List.map fst (parseBankSummary emailText)) -> In key summaryKeys)
  /\ List.NoDup (List.map fst (parseBankSummary emailText)).
Proof.
  unfold parseBankSummary. destruct (matchMarker emailText) as [m|].
  - apply (scanLines_invariant
             (fun summary =>
                (forall key, In key (List.map fst summary) -> In key summaryKeys)
                /\ List.NoDup (List.map fst summary))).
    + intros summary label key value Hkey [Hin Hnd]. split.
      * intros k Hk. apply setProperty_keys in Hk as [->|Hk]; [|auto].
        apply (findExpected_key label), Hkey.
      * apply setProperty_NoDup, Hnd.
    + split; [intros key []|constructor].
  - split; [intros key []|constructor].
Qed.

Lemma setProperty_values (Q : list N -> Prop) obj key value :
  Q value -> Forall (fun kv => Q (snd kv)) obj ->
  Forall (fun kv => Q (snd kv)) (setProperty obj key value).
Proof.
  intros Hv. induction 1 as [|[k0 v0] obj Hq Hobj IH]; simpl.
  - repeat constructor. exact Hv.
  - destruct (bool_decide (k0 = key)); constructor; auto.
Qed.

(** X4. No value the extractor returns contains the mis-decoded sequence. *)
Theorem parseBankSummary_values_normalized (emailText : list N) :
  Forall (fun kv => ~ containsGarbled (snd kv)) (parseBankSummary emailText).
Proof.
  unfold parseBankSummary. destruct (matchMarker emailText) as [m|]; [|constructor].
  apply (scanLines_invariant (Forall (fun kv => ~ containsGarbled (snd kv)))).
  - intros summary label key value _ Hsum.
    apply (setProperty_values (fun v => ~ containsGarbled v)); [|exact Hsum].
    intros (pre & post & Hocc). exact (normalize_no_occurrence _ pre post Hocc).
  - constructor.
Qed.

(** A window of the length of the pattern that begins in [x] reaches no
    further than [n] characters into what follows [x]. *)
Lemma ciStartsWith_window pat : forall x y n,
  (length pat <= length x + n)%nat ->
  ciStartsWith pat (x ++ y) = ciStartsWith pat (x ++ take n y).
Proof.
  induction pat as [|p pat IH]; intros x y n Hlen; [reflexivity|].
  destruct x as [|c x]; simpl in *.
  - destruct y as [|c y]; destruct n as [|n]; simpl in *; try lia; try reflexivity.
    f_equal. apply (IH [] y n). simpl. lia.
  - f_equal. apply IH. lia.
Qed.

(** The match found from index [i] on is the match of the text, moved by
    [i]. *)
Lemma matchMarkerFrom_shift text : forall i,
  matchMarkerFrom i text =
  (fun m => {| matchIndex := i + matchIndex m; matchLength := matchLength m |})
    <$> matchMarker text.
Proof.
  unfold matchMarker.
  induction text as [|c text IH]; intros i.
  - reflexivity.
  - rewrite (matchMarkerFrom_unfold i (c :: text)), (matchMarkerFrom_unfold 0 (c :: text)).
    destruct (ciStartsWith (js "summary") (c :: text)).
    + simpl. rewrite Nat.add_0_r. reflexivity.
    + rewrite (IH (S i)), (IH 1%nat).
      destruct (matchMarkerFrom 0 text) as [m|]; simpl; [|reflexivity].
      do 2 f_equal. lia.
Qed.

Lemma matchMarker_app pre : forall text,
  ciIncludes (js "summary") (pre ++ take 6 text) = false ->
  matchMarker (pre ++ text) =
  (fun m => {| matchIndex := length pre + matchIndex m; matchLength := matchLength m |})
    <$> matchMarker text.
Proof.
  induction pre as [|c pre IH]; intros text Hno.
  - simpl. destruct (matchMarker text) as [[i l]|]; reflexivity.
  - change (ciIncludes (js "summary") ((c :: pre) ++ take 6 text))
      with (ciStartsWith (js "summary") (c :: pre ++ take 6 text)
            || ciIncludes (js "summary") (pre ++ take 6 text)) in Hno.
    apply orb_false_elim in Hno as [Hhead Htail].
    unfold matchMarker at 1. rewrite matchMarkerFrom_unfold.
    rewrite (ciStartsWith_window (js "summary") (c :: pre) text 6) by (simpl; lia).
    change ((c :: pre) ++ take 6 text) with (c :: pre ++ take 6 text).
    rewrite Hhead. cbn [app]. rewrite matchMarkerFrom_shift, (IH text Htail).
    destruct (matchMarker text) as [m|]; reflexivity.
Qed.

(** X5. What stands before the marker does not matter: when no occurrence of
    "summary" begins in [pre], the extraction from [pre ++ text] is the
    extraction from [text]. *)
Theorem parseBankSummary_ignores_prefix (pre text : list N) :
  ~ occursIgnoringCase (js "summary") (pre ++ take 6 text) ->
  parseBankSummary (pre ++ text) = parseBankSummary text.
Proof.
  intros Hno. unfold parseBankSummary. rewrite matchMarker_app.
  - destruct (matchMarker text) as [m|]; simpl; [|reflexivity].
    unfold summarySection. simpl.
    replace (length pre + matchIndex m + matchLength m)%nat
      with (length pre + (matchIndex m + matchLength m))%nat by lia.
    rewrite drop_app_add. reflexivity.
  - destruct (ciIncludes (js "summary") (pre ++ take 6 text)) eqn:H; [|reflexivity].
    exfalso. apply Hno, ciIncludes_spec, H.
Qed.

(** A greeting line before the summary of the value-skip example. *)
Lemma parseBankSummary_ignores_prefix_witness :
  ~ occursIgnoringCase (js "summary")
      ((js "Dear customer," ++ [LF]) ++ take 6 (js "Summary:" ++ [LF] ++ valueSkipSection))
  /\ parseBankSummary ((js "Dear customer," ++ [LF]) ++ js "Summary:" ++ [LF] ++ valueSkipSection)
     = parseBankSummary (js "Summary:" ++ [LF] ++ valueSkipSection).
Proof.
  assert (H : ~ occursIgnoringCase (js "summary")
      ((js "Dear customer," ++ [LF]) ++ take 6 (js "Summary:" ++ [LF] ++ valueSkipSection))).
  { intros H. apply ciIncludes_spec in H. vm_compute in H. discriminate. }
  split; [exact H|].
  apply (parseBankSummary_ignores_prefix _ _ H).
Defined.

(** ** Response parser *)

Lemma startsWith_app_long pat : forall x y,
  (length pat <= length x)%nat -> startsWith pat (x ++ y) = startsWith pat x.
Proof.
  induction pat as [|p pat IH]; intros x y Hlen; [reflexivity|].
  destruct x as [|c x]; simpl in *; [lia|]. f_equal. apply IH. lia.
Qed.

Lemma startsWith_refl pat y : startsWith pat (pat ++ y) = true.
Proof.
  induction pat as [|p pat IH]; [reflexivity|]. simpl. rewrite N.eqb_refl. exact IH.
Qed.

Lemma beforeFirst_unfold sep s :
  beforeFirst sep s =
  if startsWith sep s then []
  else match s with
       | [] => []
       | c :: s' => c :: beforeFirst sep s'
       end.
Proof. destruct s; reflexivity. Qed.

(** The piece before the first occurrence of the separator does not depend
    on what follows an occurrence. *)
Lemma beforeFirst_app sep : forall a b,
  beforeFirst sep (a ++ sep ++ b) = beforeFirst sep (a ++ sep).
Proof.
  induction a as [|c a IH]; intros b.
  - simpl. rewrite (beforeFirst_unfold sep (sep ++ b)), (beforeFirst_unfold sep sep).
    rewrite startsWith_refl.
    rewrite <- (app_nil_r sep) at 2. rewrite startsWith_refl. reflexivity.
  - rewrite (beforeFirst_unfold sep ((c :: a) ++ sep ++ b)),
            (beforeFirst_unfold sep ((c :: a) ++ sep)).
    rewrite (app_assoc (c :: a) sep b).
    rewrite (startsWith_app_long sep ((c :: a) ++ sep) b)
      by (rewrite length_app; lia).
    destruct (startsWith sep ((c :: a) ++ sep)); [reflexivity|].
    rewrite <- app_assoc. simpl. f_equal. apply IH.
Qed.

(** X6. Whatever follows the marker phrase in the model output has no
    influence on the result of the parsing step. *)
Theorem parseResponse_ignores_trailing_text (before after after' : list N) :
  parseResponse (before ++ trailingMarker ++ after)
  = parseResponse (before ++ trailingMarker ++ after').
Proof.
  unfold parseResponse.
  rewrite (beforeFirst_app trailingMarker before after),
          (beforeFirst_app trailingMarker before after').
  reflexivity.
Qed.

(** ** Amount formatting *)

Lemma stripCommas_commaFree s : commaFree s -> stripCommas s = s.
Proof.
  unfold stripCommas. induction 1 as [|c s Hc Hs IH]; simpl; [reflexivity|].
  apply N.eqb_neq in Hc. rewrite Hc. simpl. f_equal. exact IH.
Qed.

Lemma uintDigits_digits u : Forall (fun c => isDigit c = true) (uintDigits u).
Proof. induction u; simpl; constructor; auto. Qed.

Lemma digits_commaFree s : Forall (fun c => isDigit c = true) s -> commaFree s.
Proof.
  intros H. eapply Forall_impl; [exact H|]. intros c Hc ->. discriminate.
Qed.

Lemma decimalDigits_commaFree n : commaFree (decimalDigits n).
Proof. apply digits_commaFree, uintDigits_digits. Qed.

Lemma js_commaFree_computed s :
  forallb (fun c => negb (c =? COMMA)) s = true -> commaFree s.
Proof.
  intros H. apply Forall_forall. intros c Hc.
  rewrite forallb_forall in H. apply list_elem_of_In, H in Hc.
  apply negb_true_iff, N.eqb_neq in Hc. exact Hc.
Qed.

Lemma exponentialNotation_commaFree m t : commaFree (exponentialNotation m t).
Proof.
  unfold exponentialNotation.
  destruct (shortestDigits m t) as [[[s k] n]|]; [|constructor].
  pose proof (decimalDigits_commaFree s) as Hs.
  destruct (decimalDigits s) as [|first others]; [constructor|].
  apply Forall_cons in Hs as [Hfirst Hothers].
  apply Forall_cons. split; [exact Hfirst|].
  apply Forall_app. split.
  - destruct others; [constructor|].
    apply Forall_cons. split; [discriminate | exact Hothers].
  - apply Forall_app. split; [|apply decimalDigits_commaFree].
    apply js_commaFree_computed. reflexivity.
Qed.

Lemma toFixed2_commaFree x : commaFree (toFixed2 x).
Proof.
  destruct x as [|negative|negative m t]; unfold toFixed2.
  - apply js_commaFree_computed. reflexivity.
  - apply Forall_app. split; [destruct negative|];
      apply js_commaFree_computed; reflexivity.
  - cbv zeta.
    assert (Hsign : commaFree (if negative && negb (m =? 0) then js "-" else [])).
    { destruct (negative && negb (m =? 0)); apply js_commaFree_computed; reflexivity. }
    destruct (atLeast (10 ^ 21) m t).
    + apply Forall_app. split; [exact Hsign | apply exponentialNotation_commaFree].
    + apply Forall_app. split; [exact Hsign|].
      set (ds := repeat 48 _ ++ decimalDigits _).
      assert (Hds : commaFree ds).
      { apply Forall_app. split; [|apply decimalDigits_commaFree].
        apply Forall_forall. intros c Hc. apply list_elem_of_In, repeat_spec in Hc.
        subst. discriminate. }
      apply Forall_app. split; [apply Forall_take, Hds|].
      apply Forall_cons. split; [discriminate | apply Forall_drop, Hds].
Qed.

(** X7. The removal of commas after [toFixed] never removes anything: the
    formatted amount is [parseFloat(text).toFixed(2)] itself. *)
Theorem formatAmount_comma_removal_idle (text : list N) :
  formatAmount text = toFixed2 (parseFloat text).
Proof. apply stripCommas_commaFree, toFixed2_commaFree. Qed.

Lemma parseFloat_stages s :
  parseFloat s =
  let (negative, s1) := parseFloatSign (trimStart s) in parseFloatUnsigned negative s1.
Proof. reflexivity. Qed.

Lemma skipWhile_app_stop f a c b :
  f c = false -> skipWhile f (a ++ c :: b) = skipWhile f a ++ c :: b.
Proof.
  intros Hc. induction a as [|x a IH]; simpl; [rewrite Hc; reflexivity|].
  destruct (f x); [exact IH | reflexivity].
Qed.

Lemma startsWith_app_stop pat c : ~ In c pat -> forall x y,
  startsWith pat (x ++ c :: y) = startsWith pat x.
Proof.
  induction pat as [|p pat IH]; intros Hc x y; [reflexivity|].
  destruct x as [|d x]; simpl.
  - assert ((c =? p) = false) as -> by (apply N.eqb_neq; intros ->; apply Hc; left; reflexivity).
    reflexivity.
  - f_equal. apply IH. intros H. apply Hc. right. exact H.
Qed.

Lemma spanLength_app_stop f x c y :
  f c = false -> spanLength f (x ++ c :: y) = spanLength f x.
Proof.
  intros Hc. induction x as [|d x IH]; simpl; [rewrite Hc; reflexivity|].
  destruct (f d); [f_equal; exact IH | reflexivity].
Qed.

Lemma takeDigits_app_stop x c y :
  isDigit c = false ->
  takeDigits (x ++ c :: y) = (fst (takeDigits x), snd (takeDigits x) ++ c :: y).
Proof.
  intros Hc. unfold takeDigits. simpl. rewrite spanLength_app_stop by exact Hc.
  pose proof (spanLength_le isDigit x) as Hle.
  rewrite take_app_le, drop_app_le by exact Hle. reflexivity.
Qed.

Lemma parseFloatSign_app_stop s0 c b :
  endsNumber c ->
  parseFloatSign (s0 ++ c :: b) =
  (fst (parseFloatSign s0), snd (parseFloatSign s0) ++ c :: b).
Proof.
  intros (_ & _ & Hc). destruct s0 as [|d s0]; cbn [app parseFloatSign fst snd].
  - assert ((c =? 45) = false) as -> by (apply N.eqb_neq; intros ->; apply Hc; vm_compute; tauto).
    assert ((c =? 43) = false) as -> by (apply N.eqb_neq; intros ->; apply Hc; vm_compute; tauto).
    reflexivity.
  - destruct (d =? 45); [reflexivity|]. destruct (d =? 43); reflexivity.
Qed.

Lemma parseFloatFraction_app_stop intDigits s2 c b :
  endsNumber c ->
  parseFloatFraction intDigits (s2 ++ c :: b) =
  (fst (parseFloatFraction intDigits s2), snd (parseFloatFraction intDigits s2) ++ c :: b).
Proof.
  intros (_ & Hd & Hc). destruct s2 as [|d s2]; cbn [app parseFloatFraction].
  - assert ((c =? 46) = false) as -> by (apply N.eqb_neq; intros ->; apply Hc; vm_compute; tauto).
    reflexivity.
  - destruct (d =? 46); [|reflexivity].
    rewrite takeDigits_app_stop by exact Hd. cbn [fst snd].
    destruct intDigits as [|i intDigits]; destruct (takeDigits s2) as [[|f fs] r];
      reflexivity.
Qed.

Lemma parseFloatExponent_app_stop s3 c b :
  endsNumber c -> parseFloatExponent (s3 ++ c :: b) = parseFloatExponent s3.
Proof.
  intros (_ & Hd & Hc). destruct s3 as [|d s3]; cbn [app parseFloatExponent].
  - assert ((c =? 101) = false) as -> by (apply N.eqb_neq; intros ->; apply Hc; vm_compute; tauto).
    assert ((c =? 69) = false) as -> by (apply N.eqb_neq; intros ->; apply Hc; vm_compute; tauto).
    reflexivity.
  - destruct ((d =? 101) || (d =? 69)); [|reflexivity].
    destruct s3 as [|e s3]; cbn [app].
    + assert ((c =? 45) = false) as -> by (apply N.eqb_neq; intros ->; apply Hc; vm_compute; tauto).
      assert ((c =? 43) = false) as -> by (apply N.eqb_neq; intros ->; apply Hc; vm_compute; tauto).
      pose proof (takeDigits_app_stop [] c b Hd) as Ht. cbn [app] in Ht.
      rewrite Ht. reflexivity.
    + destruct (e =? 45); [rewrite takeDigits_app_stop by exact Hd; reflexivity|].
      destruct (e =? 43); [rewrite takeDigits_app_stop by exact Hd; reflexivity|].
      pose proof (takeDigits_app_stop (e :: s3) c b Hd) as Ht. cbn [app] in Ht.
      rewrite Ht. reflexivity.
Qed.

Lemma parseFloatUnsigned_app_stop negative s1 c b :
  endsNumber c ->
  parseFloatUnsigned negative (s1 ++ c :: b) = parseFloatUnsigned negative s1.
Proof.
  intros Hend. pose proof Hend as (_ & Hd & Hc). unfold parseFloatUnsigned.
  rewrite startsWith_app_stop
    by (intros H; apply Hc; vm_compute in H |- *; tauto).
  destruct (startsWith (js "Infinity") s1); [reflexivity|].
  rewrite takeDigits_app_stop by exact Hd.
  destruct (takeDigits s1) as [intDigits s2]. cbn [fst snd].
  rewrite parseFloatFraction_app_stop by exact Hend.
  destruct (parseFloatFraction intDigits s2) as [fracDigits s3]. cbn [fst snd].
  rewrite parseFloatExponent_app_stop by exact Hend. reflexivity.
Qed.

(** [parseFloat] reads nothing from a character on that ends a number. *)
Lemma parseFloat_app_stop a c b :
  endsNumber c -> parseFloat (a ++ c :: b) = parseFloat a.
Proof.
  intros Hend. rewrite !parseFloat_stages. unfold trimStart.
  rewrite skipWhile_app_stop by apply Hend.
  rewrite parseFloatSign_app_stop by exact Hend.
  destruct (parseFloatSign (skipWhile isWhiteSpace a)) as [negative s1]. cbn [fst snd].
  apply parseFloatUnsigned_app_stop, Hend.
Qed.

Lemma comma_endsNumber : endsNumber COMMA.
Proof.
  repeat split; try reflexivity. vm_compute. intuition discriminate.
Qed.

(** X8. An amount is read up to its first comma: the formatted amount of
    [a], a comma and [b] is the formatted amount of [a] alone. *)
Theorem formatAmount_stops_at_comma (a b : list N) :
  formatAmount (a ++ COMMA :: b) = formatAmount a.
Proof.
  unfold formatAmount. rewrite (parseFloat_app_stop a COMMA b comma_endsNumber).
  reflexivity.
Qed.

(** ** Record store *)

Lemma store_eq (s1 s2 : ObjectStore) :
  keyGenerator s1 = keyGenerator s2 -> records s1 = records s2 -> s1 = s2.
Proof. destruct s1, s2; simpl; intros -> ->; reflexivity. Qed.

Lemma keysBelow_succ g : 1 <= g -> keysBelow (g + 1) = keysBelow g ++ [g].
Proof.
  intros Hg. unfold keysBelow.
  replace (N.to_nat (g + 1) - 1)%nat with (S (N.to_nat g - 1)) by lia.
  rewrite seq_S, fmap_app. simpl. do 2 f_equal. lia.
Qed.

Lemma omap_lookup_ext (m1 m2 : gmap N PaymentSummary) (keys : list N) :
  (forall key, key ∈ keys -> m1 !! key = m2 !! key) ->
  omap (fun key => m1 !! key) keys = omap (fun key => m2 !! key) keys.
Proof.
  intros H. apply list_omap_ext.
  induction keys as [|k keys IH]; constructor.
  - apply H. left.
  - apply IH. intros key Hkey. apply H. right. exact Hkey.
Qed.

(** [getAll] after [add]: the new record comes last. *)
Lemma getAll_add store value :
  storeOk store -> getAll (add store value) = getAll store ++ [value (keyGenerator store)].
Proof.
  intros [Hwf Hpos]. unfold getAll, add. cbn [keyGenerator records].
  rewrite keysBelow_succ by exact Hpos. rewrite omap_app. f_equal.
  - apply omap_lookup_ext. intros key Hkey.
    apply elem_of_keysBelow in Hkey. apply lookup_insert_ne. lia.
  - cbn [omap list_omap]. rewrite lookup_insert_eq. reflexivity.
Qed.

(** [getAll] after [updateMatchingRecord]: the same records, reconciled. *)
Lemma getAll_update amount store :
  storeWf store ->
  getAll (updateMatchingRecord amount store) = reconciled amount <$> getAll store.
Proof.
  intros Hwf. destruct (updateMatchingRecord_records amount store Hwf) as [Hgen Hrec].
  unfold getAll. rewrite Hgen, Hrec, list_fmap_omap. apply list_omap_ext.
  induction (keysBelow (keyGenerator store)) as [|k keys IH]; constructor.
  - apply lookup_fmap.
  - exact IH.
Qed.

Lemma emptyStore_shape : storeShape emptyStore.
Proof.
  split; [simpl; lia|]. split.
  - intros key. simpl. rewrite lookup_empty. split.
    + intros [x Hx]. discriminate.
    + lia.
  - intros key summary H. simpl in H. rewrite lookup_empty in H. discriminate.
Qed.

Lemma add_shape store value :
  storeShape store ->
  (forall key, id (value key) = key /\ paymentStatus (value key) = js "unpaid") ->
  storeShape (add store value).
Proof.
  intros (Hpos & Hdom & Hrec) Hvalue. split; [simpl; lia|]. split.
  - intros key. rewrite add_lookup. simpl.
    destruct (decide (keyGenerator store = key)) as [<-|Hne].
    + split; [lia | eauto].
    + rewrite Hdom. lia.
  - intros key summary. rewrite add_lookup.
    destruct (decide (keyGenerator store = key)) as [<-|Hne].
    + intros H. injection H as <-. destruct (Hvalue (keyGenerator store)). auto.
    + apply Hrec.
Qed.

Lemma storeShape_wf store : storeShape store -> storeWf store.
Proof.
  intros (Hpos & Hdom & Hrec) key summary H. split; [apply (Hrec _ _ H)|].
  apply Hdom. eauto.
Qed.

Lemma reconciled_status amount summary :
  paymentStatus (reconciled amount summary) = paymentStatus summary
  \/ paymentStatus (reconciled amount summary) = js "paid".
Proof. unfold reconciled. destruct (bool_decide _ && negb _); simpl; auto. Qed.

Lemma applyOperation_shape store op :
  storeShape store -> storeShape (applyOperation store op).
Proof.
  intros Hshape. destruct op as [pd now | pd now | amount]; unfold applyOperation.
  - unfold savePaymentSummaryToIndexedDB. cbv zeta.
    destruct (existsb _ (getAll store)); cbn [negb]; [exact Hshape|].
    apply add_shape; [exact Hshape|]. intros key. split; reflexivity.
  - apply add_shape; [exact Hshape|]. intros key. split; reflexivity.
  - pose proof (storeShape_wf store Hshape) as Hwf.
    destruct (updateMatchingRecord_records amount store Hwf) as [Hgen Hrec].
    destruct Hshape as (Hpos & Hdom & Hstat).
    split; [rewrite Hgen; exact Hpos|]. split.
    + intros key. rewrite Hgen, Hrec, lookup_fmap, fmap_is_Some. apply Hdom.
    + intros key summary. rewrite Hrec, lookup_fmap.
      destruct (records store !! key) as [old|] eqn:Hold; [|discriminate].
      intros H. injection H as <-. destruct (Hstat _ _ Hold) as [Hid Hst].
      rewrite reconciled_id. split; [exact Hid|].
      destruct (reconciled_status amount old) as [-> | ->]; auto.
Qed.

Lemma reachable_shape store : reachable store -> storeShape store.
Proof.
  intros [ops ->]. unfold applyOperations.
  assert (H : forall s, storeShape s -> storeShape (fold_left applyOperation ops s)).
  { induction ops as [|op ops IH]; intros s Hs; simpl; [exact Hs|].
    apply IH, applyOperation_shape, Hs. }
  apply H, emptyStore_shape.
Qed.

Lemma length_omap_total (f : N -> option PaymentSummary) (keys : list N) :
  (forall key, key ∈ keys -> is_Some (f key)) -> length (omap f keys) = length keys.
Proof.
  induction keys as [|k keys IH]; intros H; [reflexivity|]. simpl.
  destruct (H k) as [x ->]; [left|]. simpl. f_equal. apply IH.
  intros key Hkey. apply H. right. exact Hkey.
Qed.

(** X9. In every reachable store the keys in use are exactly 1, 2, ... up to
    the number of records, every record carries its key as [id] and has
    status "unpaid" or "paid"; no key is ever freed or used twice. *)
Theorem reachable_store_shape (store : ObjectStore) :
  reachable store ->
  storeShape store /\ N.of_nat (length (getAll store)) + 1 = keyGenerator store.
Proof.
  intros Hreach. pose proof (reachable_shape store Hreach) as Hshape.
  split; [exact Hshape|]. destruct Hshape as (Hpos & Hdom & _).
  unfold getAll. rewrite length_omap_total.
  - unfold keysBelow. rewrite length_fmap, length_seq. lia.
  - intros key Hkey. apply Hdom, elem_of_keysBelow, Hkey.
Qed.

(** The store with one paid bill has the shape. *)
Lemma reachable_store_shape_witness :
  reachable settledStore
  /\ storeShape settledStore
  /\ N.of_nat (length (getAll settledStore)) + 1 = keyGenerator settledStore.
Proof.
  assert (Hreach : reachable settledStore) by (eexists; reflexivity).
  split; [exact Hreach|]. apply (reachable_store_shape settledStore Hreach).
Defined.

(** X10. A bill that is stored, by either insert, is recognized by the
    checked insert whatever the separators in its amount, its bank name and
    the time: the insert changes nothing. *)
Theorem save_after_save_unchanged (store : ObjectStore) (stored again : PaymentData)
  (now now' : list N) (background : bool) :
  reachable store ->
  stripCommas (Total_Amount_Due again) = stripCommas (Total_Amount_Due stored) ->
  Due_Date again = Due_Date stored ->
  let store' := if background
                then Background.savePaymentSummaryToIndexedDB stored now store
                else savePaymentSummaryToIndexedDB stored now store in
  savePaymentSummaryToIndexedDB again now' store' = store'.
Proof.
  intros Hreach Htotal Hdue store'.
  apply reachable_ok in Hreach. pose proof Hreach as [Hwf Hpos].
  assert (Hok' : storeOk store').
  { subst store'. destruct background.
    - apply (applyOperation_ok store (BackgroundSaveSummary stored now) Hreach).
    - apply (applyOperation_ok store (SaveSummary stored now) Hreach). }
  assert (Hfound : exists key summary, records store' !! key = Some summary
            /\ dedupKey summary
               = (stripCommas (Total_Amount_Due again), Due_Date again)).
  { subst store'. destruct background.
    - exists (keyGenerator store). eexists. split.
      + unfold Background.savePaymentSummaryToIndexedDB. rewrite add_lookup.
        destruct (decide (keyGenerator store = keyGenerator store)); [reflexivity|contradiction].
      + unfold dedupKey. simpl. rewrite Htotal, Hdue. reflexivity.
    - unfold savePaymentSummaryToIndexedDB. cbv zeta.
      destruct (existsb _ (getAll store)) eqn:Hdup; cbn [negb].
      + apply (isDuplicate_spec store _ _ Hwf) in Hdup as (key & summary & Hkey & Hdk).
        exists key, summary. split; [exact Hkey|]. rewrite Hdk, Htotal, Hdue. reflexivity.
      + exists (keyGenerator store). eexists. split.
        * rewrite add_lookup.
          destruct (decide (keyGenerator store = keyGenerator store)); [reflexivity|contradiction].
        * unfold dedupKey. simpl. rewrite stripCommas_idempotent, Htotal, Hdue. reflexivity. }
  destruct Hfound as (key & summary & Hkey & Hdk).
  apply (save_duplicate_unchanged again now' store' key summary (proj1 Hok') Hkey Hdk).
Qed.

(** The bill "1,234.00" of [background.ts], offered again as "1234.00". *)
Lemma save_after_save_unchanged_witness :
  let stored := {| Due_Date := js "01-05-2025"; Total_Amount_Due := js "1,234.00";
                   Bank_Name := js "X" |} in
  let again := {| Due_Date := js "01-05-2025"; Total_Amount_Due := js "1234.00";
                  Bank_Name := js "Bank X" |} in
  let store' := Background.savePaymentSummaryToIndexedDB stored (js "t1") settledStore in
  reachable settledStore
  /\ savePaymentSummaryToIndexedDB again (js "t2") store' = store'.
Proof.
  intros stored again store'.
  assert (Hreach : reachable settledStore) by (eexists; reflexivity).
  split; [exact Hreach|].
  apply (save_after_save_unchanged settledStore stored again (js "t1") (js "t2") true Hreach);
    reflexivity.
Defined.

(** The checked insert of a bill that is not stored yet is an [add]. *)
Lemma save_new_adds store paymentData now :
  storeWf store ->
  (forall key summary, records store !! key = Some summary ->
     dedupKey summary
     <> (stripCommas (Total_Amount_Due paymentData), Due_Date paymentData)) ->
  savePaymentSummaryToIndexedDB paymentData now store
  = add store (newSummary paymentData now).
Proof.
  intros Hwf Hnew. unfold savePaymentSummaryToIndexedDB. cbv zeta.
  destruct (existsb _ (getAll store)) eqn:Hdup; cbn [negb]; [|reflexivity].
  apply (isDuplicate_spec store _ _ Hwf) in Hdup as (key & summary & Hkey & Hdk).
  exfalso. exact (Hnew _ _ Hkey Hdk).
Qed.

(** X11. The checked insert of a bill that is not stored yet appends one
    record: its key is the key generator, its amount has the commas removed,
    its bank name is trimmed, its status is "unpaid"; the records before it
    are as they were. *)
Theorem save_new_appends (store : ObjectStore) (paymentData : PaymentData) (now : list N) :
  reachable store ->
  (forall key summary, records store !! key = Some summary ->
     dedupKey summary
     <> (stripCommas (Total_Amount_Due paymentData), Due_Date paymentData)) ->
  getAll (savePaymentSummaryToIndexedDB paymentData now store)
  = getAll store ++ [newSummary paymentData now (keyGenerator store)].
Proof.
  intros Hreach Hnew. apply reachable_ok in Hreach.
  rewrite (save_new_adds store paymentData now (proj1 Hreach) Hnew).
  apply getAll_add, Hreach.
Qed.

(** A second bill saved into the store that holds the first. *)
Lemma save_new_appends_witness :
  reachable settledStore
  /\ getAll (savePaymentSummaryToIndexedDB otherBill (js "2025-05-01T00:00:00.000Z")
               settledStore)
     = getAll settledStore
       ++ [{| id := 2; DueDate := js "01-06-2025"; totalAmountDue := js "2500.50";
              paymentStatus := js "unpaid";
              summaryTimestamp := js "2025-05-01T00:00:00.000Z"; BankName := js "Y" |}].
Proof.
  assert (Hreach : reachable settledStore) by (eexists; reflexivity).
  split; [exact Hreach|].
  apply (save_new_appends settledStore otherBill _ Hreach).
  intros key summary Hkey Hdk.
  assert (Hin : summary ∈ getAll settledStore).
  { apply (getAll_lookup _ key); [apply reachable_ok, Hreach | exact Hkey]. }
  vm_compute in Hin. apply list_elem_of_singleton in Hin. subst summary.
  vm_compute in Hdk. discriminate Hdk.
Defined.

(** X12. After the checked insert of a new bill the notification of the popup
    describes that bill: its due date, its amount without commas and the
    status "unpaid". *)
Theorem notify_after_new_save (store : ObjectStore) (paymentData : PaymentData)
  (now : list N) :
  reachable store ->
  (forall key summary, records store !! key = Some summary ->
     dedupKey summary
     <> (stripCommas (Total_Amount_Due paymentData), Due_Date paymentData)) ->
  notifyFromIndexedDB (savePaymentSummaryToIndexedDB paymentData now store)
  = {| title := js "Payment Summary";
       message := js "Payment Due Date: " ++ Due_Date paymentData
                  ++ js ", Total Amount Due: " ++ stripCommas (Total_Amount_Due paymentData)
                  ++ js ", Status: unpaid" |}.
Proof.
  intros Hreach Hnew. apply reachable_ok in Hreach. unfold notifyFromIndexedDB.
  rewrite (save_new_adds store paymentData now (proj1 Hreach) Hnew).
  rewrite (getAll_add store _ Hreach), last_snoc.
  reflexivity.
Qed.

Lemma notify_after_new_save_witness :
  reachable emptyStore
  /\ notifyFromIndexedDB
       (savePaymentSummaryToIndexedDB otherBill (js "2025-05-01T00:00:00.000Z") emptyStore)
     = {| title := js "Payment Summary";
          message := js "Payment Due Date: 01-06-2025, Total Amount Due: 2500.50, Status: unpaid" |}.
Proof.
  assert (Hreach : reachable emptyStore) by (exists []; reflexivity).
  split; [exact Hreach|].
  apply (notify_after_new_save emptyStore otherBill _ Hreach).
  intros key summary Hkey. simpl in Hkey. rewrite lookup_empty in Hkey. discriminate.
Defined.

(** ** Reconciliation *)

Lemma reconciled_matches amount summary :
  reconciled amount summary =
  if amountMatches amount summary then setPaymentStatus (js "paid") summary else summary.
Proof.
  unfold reconciled, amountMatches.
  destruct (bool_decide (formatAmount _ = _)); [|reflexivity].
  destruct (bool_decide (paymentStatus summary = js "paid")) eqn:Hpaid; [|reflexivity].
  apply bool_decide_eq_true_1 in Hpaid. destruct summary. simpl in *. subst. reflexivity.
Qed.

(** X13. [updateMatchingRecord] gives status "paid" to every stored record
    whose formatted amount equals the formatted paid amount, whatever its due
    date or bank, and changes nothing else: no other record, no other field,
    no key, not the key generator. *)
Theorem updateMatchingRecord_effect (amount : list N) (store : ObjectStore) :
  reachable store ->
  keyGenerator (updateMatchingRecord amount store) = keyGenerator store
  /\ forall key,
       records (updateMatchingRecord amount store) !! key
       = (fun summary =>
            if bool_decide (formatAmount (totalAmountDue summary) = formatAmount amount)
            then setPaymentStatus (js "paid") summary
            else summary) <$> records store !! key.
Proof.
  intros Hreach. apply reachable_ok in Hreach as [Hwf _].
  destruct (updateMatchingRecord_records amount store Hwf) as [Hgen Hrec].
  split; [exact Hgen|]. intros key. rewrite Hrec, lookup_fmap.
  destruct (records store !! key) as [summary|]; [|reflexivity]. simpl.
  rewrite reconciled_matches. reflexivity.
Qed.

(** Both bills of [twoBillStore] after a payment of the second. *)
Lemma updateMatchingRecord_effect_witness :
  reachable twoBillStore
  /\ keyGenerator (updateMatchingRecord (js "2500.5") twoBillStore) = 3
  /\ paymentStatus <$> records (updateMatchingRecord (js "2500.5") twoBillStore) !! 2
     = Some (js "paid").
Proof.
  assert (Hreach : reachable twoBillStore).
  { exists [SaveSummary sameBill (js "2025-04-01T00:00:00.000Z"); UpdateMatching (js "100");
            SaveSummary otherBill (js "2025-05-01T00:00:00.000Z")].
    vm_compute. reflexivity. }
  split; [exact Hreach|].
  destruct (updateMatchingRecord_effect (js "2500.5") twoBillStore Hreach) as [Hgen Hrec].
  split; [rewrite Hgen; reflexivity|].
  rewrite (Hrec 2). vm_compute. reflexivity.
Defined.

Lemma reconciled_idempotent amount summary :
  reconciled amount (reconciled amount summary) = reconciled amount summary.
Proof.
  rewrite !reconciled_matches. unfold amountMatches.
  destruct (bool_decide (formatAmount (totalAmountDue summary) = _)) eqn:H;
    simpl; rewrite H; reflexivity.
Qed.

Lemma reconciled_commute a b summary :
  reconciled a (reconciled b summary) = reconciled b (reconciled a summary).
Proof.
  rewrite !reconciled_matches. unfold amountMatches.
  destruct (bool_decide (formatAmount (totalAmountDue summary) = formatAmount a)) eqn:Ha;
    destruct (bool_decide (formatAmount (totalAmountDue summary) = formatAmount b)) eqn:Hb;
    simpl; rewrite ?Ha, ?Hb; reflexivity.
Qed.

(** X14. Reconciliations can be repeated and reordered: a second run with the
    same amount changes nothing, and two runs with two amounts give the same
    store in either order. *)
Theorem updateMatchingRecord_idempotent_commutes (a b : list N) (store : ObjectStore) :
  reachable store ->
  updateMatchingRecord a (updateMatchingRecord a store) = updateMatchingRecord a store
  /\ updateMatchingRecord a (updateMatchingRecord b store)
     = updateMatchingRecord b (updateMatchingRecord a store).
Proof.
  intros Hreach. apply reachable_ok in Hreach as [Hwf _].
  pose proof (updateMatchingRecord_wf a store Hwf) as Hwfa.
  pose proof (updateMatchingRecord_wf b store Hwf) as Hwfb.
  destruct (updateMatchingRecord_records a store Hwf) as [Hga Hra].
  destruct (updateMatchingRecord_records b store Hwf) as [Hgb Hrb].
  destruct (updateMatchingRecord_records a _ Hwfa) as [Hgaa Hraa].
  destruct (updateMatchingRecord_records a _ Hwfb) as [Hgab Hrab].
  destruct (updateMatchingRecord_records b _ Hwfa) as [Hgba Hrba].
  split; apply store_eq; try congruence.
  - rewrite Hraa, Hra, <- map_fmap_compose. apply map_fmap_ext.
    intros key summary _. apply reconciled_idempotent.
  - rewrite Hrab, Hrba, Hra, Hrb, <- !map_fmap_compose. apply map_fmap_ext.
    intros key summary _. apply reconciled_commute.
Qed.

Lemma updateMatchingRecord_idempotent_commutes_witness :
  reachable twoBillStore
  /\ updateMatchingRecord (js "100") (updateMatchingRecord (js "2500.5") twoBillStore)
     = updateMatchingRecord (js "2500.5") (updateMatchingRecord (js "100") twoBillStore).
Proof.
  assert (Hreach : reachable twoBillStore).
  { exists [SaveSummary sameBill (js "2025-04-01T00:00:00.000Z"); UpdateMatching (js "100");
            SaveSummary otherBill (js "2025-05-01T00:00:00.000Z")].
    vm_compute. reflexivity. }
  split; [exact Hreach|].
  apply (updateMatchingRecord_idempotent_commutes (js "100") (js "2500.5") twoBillStore Hreach).
Defined.

(** ** Notifications of the service worker *)

Section NotificationProperties.
Variable toLowerCase : list N -> list N.
Hypothesis toLowerCase_ascii :
  forall s, Forall (fun c => c < 128) s -> toLowerCase s = asciiLowerCase s.

Lemma unpaid_test summary :
  paymentStatus summary = js "unpaid" \/ paymentStatus summary = js "paid" ->
  bool_decide (toLowerCase (paymentStatus summary) = js "unpaid")
  = bool_decide (paymentStatus summary = js "unpaid").
Proof.
  intros [H|H]; rewrite H, toLowerCase_ascii.
  - reflexivity.
  - repeat constructor.
  - reflexivity.
  - repeat constructor.
Qed.

Lemma filter_ext_in {A} (p q : A -> bool) (l : list A) :
  (forall x, x ∈ l -> p x = q x) -> List.filter p l = List.filter q l.
Proof.
  induction l as [|x l IH]; intros H; [reflexivity|]. simpl.
  rewrite (H x) by left. rewrite IH; [reflexivity|].
  intros y Hy. apply H. right. exact Hy.
Qed.

Lemma filter_fmap {A B} (f : A -> B) (p : B -> bool) (l : list A) :
  List.filter p (f <$> l) = f <$> List.filter (fun x => p (f x)) l.
Proof.
  induction l as [|x l IH]; [reflexivity|]. cbn [fmap list_fmap List.filter].
  destruct (p (f x)); cbn [fmap list_fmap]; rewrite <- IH; reflexivity.
Qed.

Lemma fmap_id_in {A} (f : A -> A) (l : list A) :
  (forall x, x ∈ l -> f x = x) -> f <$> l = l.
Proof.
  induction l as [|x l IH]; intros H; [reflexivity|]. simpl.
  rewrite (H x) by left. f_equal. apply IH. intros y Hy. apply H. right. exact Hy.
Qed.

(** The summaries [sendNotifications] selects in a store of the shape. *)
Lemma sendNotifications_unpaid store :
  storeShape store ->
  sendNotifications toLowerCase store =
  let unpaid := List.filter (fun summary =>
                  bool_decide (paymentStatus summary = js "unpaid")) (getAll store) in
  if (0 <? length unpaid)%nat then summaryNotification <$> unpaid
  else [noUnpaidNotification].
Proof.
  intros Hshape. unfold sendNotifications. cbv zeta.
  rewrite (filter_ext_in _ (fun summary =>
             bool_decide (paymentStatus summary = js "unpaid"))).
  - reflexivity.
  - intros summary Hin. apply unpaid_test.
    apply getAll_spec in Hin; [|apply storeShape_wf, Hshape].
    destruct Hshape as (_ & _ & Hstat). apply (Hstat _ _ Hin).
Qed.

(** X15. After a reconciliation the service worker notifies exactly the
    records that were unpaid before it and whose amount does not match, one
    notification each in the order of their keys, and sends the single
    "No Unpaid Payments" notification when no such record is left. *)
Theorem sendNotifications_after_update (amount : list N) (store : ObjectStore) :
  reachable store ->
  sendNotifications toLowerCase (updateMatchingRecord amount store) =
  let remaining :=
    List.filter (fun summary =>
        bool_decide (paymentStatus summary = js "unpaid")
        && negb (amountMatches amount summary)) (getAll store) in
  if (0 <? length remaining)%nat then summaryNotification <$> remaining
  else [noUnpaidNotification].
Proof.
  intros Hreach. pose proof (reachable_shape store Hreach) as Hshape.
  pose proof (storeShape_wf store Hshape) as Hwf.
  rewrite sendNotifications_unpaid
    by (apply (applyOperation_shape store (UpdateMatching amount)), Hshape).
  cbv zeta. rewrite (getAll_update amount store Hwf), filter_fmap.
  assert (Hfilter :
    List.filter (fun summary =>
        bool_decide (paymentStatus (reconciled amount summary) = js "unpaid"))
      (getAll store)
    = List.filter (fun summary =>
        bool_decide (paymentStatus summary = js "unpaid")
        && negb (amountMatches amount summary)) (getAll store)).
  { apply filter_ext_in. intros summary _. rewrite reconciled_matches.
    destruct (amountMatches amount summary); simpl.
    - rewrite andb_false_r. reflexivity.
    - rewrite andb_true_r. reflexivity. }
  rewrite Hfilter.
  rewrite (fmap_id_in (reconciled amount)).
  - reflexivity.
  - intros summary Hin. apply list_elem_of_In, filter_In in Hin as [_ Hcond].
    apply andb_prop in Hcond as [_ Hno]. rewrite reconciled_matches.
    destruct (amountMatches amount summary); [discriminate|reflexivity].
Qed.

End NotificationProperties.

(** The second bill paid: nothing is left to notify. *)
Lemma sendNotifications_after_update_witness :
  (forall s, Forall (fun c => c < 128) s -> asciiLowerCase s = asciiLowerCase s)
  /\ reachable twoBillStore
  /\ sendNotifications asciiLowerCase (updateMatchingRecord (js "2500.5") twoBillStore)
     = [noUnpaidNotification].
Proof.
  assert (Hlower : forall s, Forall (fun c => c < 128) s -> asciiLowerCase s = asciiLowerCase s)
    by reflexivity.
  assert (Hreach : reachable twoBillStore).
  { exists [SaveSummary sameBill (js "2025-04-01T00:00:00.000Z"); UpdateMatching (js "100");
            SaveSummary otherBill (js "2025-05-01T00:00:00.000Z")].
    vm_compute. reflexivity. }
  split; [exact Hlower|]. split; [exact Hreach|].
  rewrite (sendNotifications_after_update asciiLowerCase Hlower (js "2500.5") twoBillStore Hreach).
  vm_compute. reflexivity.
Defined.

(** ** Base64 decoding *)

(** Induction over a list in steps of three. *)
Lemma list_ind3 {A} (P : list A -> Prop) :
  P [] -> (forall a, P [a]) -> (forall a b, P [a; b]) ->
  (forall a b c rest, P rest -> P (a :: b :: c :: rest)) ->
  forall l, P l.
Proof.
  intros H0 H1 H2 H3 l.
  assert (H : P l /\ (forall a, P (a :: l)) /\ (forall a b, P (a :: b :: l))).
  { induction l as [|x l (IH0 & IH1 & IH2)]; [auto|].
    split; [apply IH1|]. split; [intros a; apply IH2|]. intros a b. apply H3, IH0. }
  apply H.
Qed.

Lemma standardChar_facts i :
  i < 64 ->
  sextetOf (standardChar i) = Some i
  /\ isAsciiWhitespace (standardChar i) = false
  /\ standardChar i <> 61.
Proof.
  intros Hi.
  assert (Hall : forallb (fun i =>
            bool_decide (sextetOf (standardChar i) = Some i)
            && negb (isAsciiWhitespace (standardChar i))
            && negb (standardChar i =? 61)) (N.of_nat <$> seq 0 64) = true)
    by (vm_compute; reflexivity).
  rewrite forallb_forall in Hall.
  assert (Hin : In i (N.of_nat <$> seq 0 64)).
  { apply list_elem_of_In, list_elem_of_fmap. exists (N.to_nat i).
    split; [lia|]. apply elem_of_seq. lia. }
  apply Hall, andb_prop in Hin as [H12 H3].
  apply andb_prop in H12 as [H1 H2].
  apply bool_decide_eq_true_1 in H1. apply negb_true_iff in H2.
  apply negb_true_iff, N.eqb_neq in H3. auto.
Qed.

Lemma encodeSextets_bound bytes :
  Forall (fun b => b < 256) bytes -> Forall (fun s => s < 64) (encodeSextets bytes).
Proof.
  induction bytes as [| a | a b | a b c rest IH] using list_ind3; intros Hb; simpl.
  - constructor.
  - apply Forall_cons in Hb as [Ha _]. repeat constructor.
    + apply N.Div0.div_lt_upper_bound. lia.
    + apply N.mod_lt. lia.
  - apply Forall_cons in Hb as [Ha Hb]. apply Forall_cons in Hb as [Hb _].
    repeat constructor; try (apply N.mod_lt; lia).
    apply N.Div0.div_lt_upper_bound. lia.
  - apply Forall_cons in Hb as [Ha Hb]. apply Forall_cons in Hb as [Hb Hc].
    apply Forall_cons in Hc as [Hc Hrest].
    repeat (apply Forall_cons; split); try (apply N.mod_lt; lia); [|apply IH, Hrest].
    apply N.Div0.div_lt_upper_bound. lia.
Qed.

Lemma decode_encode_sextets bytes :
  Forall (fun b => b < 256) bytes -> decodeSextets (encodeSextets bytes) = bytes.
Proof.
  induction bytes as [| a | a b | a b c rest IH] using list_ind3; intros Hb.
  - reflexivity.
  - apply Forall_cons in Hb as [Ha _]. cbn [encodeSextets decodeSextets].
    f_equal. zify. Z.to_euclidean_division_equations. lia.
  - apply Forall_cons in Hb as [Ha Hb]. apply Forall_cons in Hb as [Hb _].
    cbn [encodeSextets decodeSextets]. cbv zeta.
    f_equal; [|f_equal]; zify; Z.to_euclidean_division_equations; lia.
  - apply Forall_cons in Hb as [Ha Hb]. apply Forall_cons in Hb as [Hb Hc].
    apply Forall_cons in Hc as [Hc Hrest].
    cbn [encodeSextets decodeSextets]. cbv zeta. rewrite (IH Hrest).
    f_equal; [|f_equal; [|f_equal]]; zify; Z.to_euclidean_division_equations; lia.
Qed.

Lemma replace_encoded sextets pad :
  Forall (fun c => c = 61) pad ->
  replaceChar 95 47 (replaceChar 45 43 (List.map base64urlChar sextets ++ pad))
  = List.map standardChar sextets ++ pad.
Proof.
  intros Hpad. unfold replaceChar. rewrite !List.map_app, !List.map_map. f_equal.
  induction Hpad as [|c pad -> _ IH]; [reflexivity|]. simpl. f_equal. exact IH.
Qed.

Lemma filter_keeps_encoded sextets pad :
  Forall (fun s => s < 64) sextets -> Forall (fun c => c = 61) pad ->
  List.filter (fun c => negb (isAsciiWhitespace c)) (List.map standardChar sextets ++ pad)
  = List.map standardChar sextets ++ pad.
Proof.
  intros Hs Hpad. rewrite List.filter_app. f_equal.
  - induction Hs as [|s sextets Hlt _ IH]; [reflexivity|]. simpl.
    destruct (standardChar_facts s Hlt) as (_ & -> & _). simpl. f_equal. exact IH.
  - induction Hpad as [|c pad -> _ IH]; [reflexivity|]. simpl. f_equal. exact IH.
Qed.

Lemma standardChars_no_padding sextets :
  Forall (fun s => s < 64) sextets ->
  Forall (fun c => c <> 61) (List.map standardChar sextets).
Proof.
  induction 1 as [|s sextets Hlt _ IH]; simpl; constructor; [|exact IH].
  apply (standardChar_facts s Hlt).
Qed.

(** Text that does not end in [=] is left alone. *)
Lemma removePadding_none data :
  Forall (fun c => c <> 61) data -> removePadding data = data.
Proof.
  intros Hdata. unfold removePadding.
  destruct (length data mod 4 =? 0)%nat; [|reflexivity].
  apply Forall_rev in Hdata.
  destruct (rev data) as [|c1 [|c2 r]]; [reflexivity| |].
  - apply Forall_cons in Hdata as [Hc _]. apply N.eqb_neq in Hc. rewrite Hc. reflexivity.
  - apply Forall_cons in Hdata as [Hc _]. apply N.eqb_neq in Hc. rewrite Hc. reflexivity.
Qed.

(** One or two [=] at the end of a text of full groups are removed. *)
Lemma removePadding_one data :
  Forall (fun c => c <> 61) data -> data <> [] ->
  (length (data ++ [61%N]) mod 4 = 0)%nat ->
  removePadding (data ++ [61]) = data.
Proof.
  intros Hdata Hne Hlen. unfold removePadding. rewrite Hlen. cbn [Nat.eqb].
  rewrite rev_app_distr. cbn [rev app].
  apply Forall_rev in Hdata.
  destruct (rev data) as [|c2 r] eqn:Hrev.
  - exfalso. apply Hne. apply (f_equal (@rev N)) in Hrev. rewrite rev_involutive in Hrev.
    exact Hrev.
  - apply Forall_cons in Hdata as [Hc _]. apply N.eqb_neq in Hc. rewrite Hc.
    change (61 =? 61) with true. cbv iota.
    change (rev r ++ [c2]) with (rev (c2 :: r)). rewrite <- Hrev. apply rev_involutive.
Qed.

Lemma removePadding_two data :
  (length (data ++ [61%N; 61%N]) mod 4 = 0)%nat ->
  removePadding (data ++ [61; 61]) = data.
Proof.
  intros Hlen. unfold removePadding. rewrite Hlen. cbn [Nat.eqb].
  rewrite rev_app_distr. cbn [rev app].
  change (61 =? 61) with true. cbv iota. apply rev_involutive.
Qed.

(** The number of sextets and of padding characters of an encoding. *)
Lemma encoding_length bytes :
  exists q : nat,
    (base64Padding bytes = [] /\
       (length (encodeSextets bytes) = 4 * q
        \/ length (encodeSextets bytes) = 4 * q + 2
        \/ length (encodeSextets bytes) = 4 * q + 3)%nat)
    \/ (base64Padding bytes = [61] /\ (length (encodeSextets bytes) = 4 * q + 3)%nat)
    \/ (base64Padding bytes = [61; 61] /\ (length (encodeSextets bytes) = 4 * q + 2)%nat).
Proof.
  induction bytes as [| a | a b | a b c rest IH] using list_ind3.
  - exists 0%nat. left. split; [reflexivity|]. left. reflexivity.
  - exists 0%nat. right. right. split; reflexivity.
  - exists 0%nat. right. left. split; reflexivity.
  - destruct IH as [q IH]. exists (S q). cbn [base64Padding encodeSextets length].
    destruct IH as [[Hp Hl] | [[Hp Hl] | [Hp Hl]]]; rewrite Hp.
    + left. split; [reflexivity|]. lia.
    + right. left. split; [reflexivity|]. lia.
    + right. right. split; [reflexivity|]. lia.
Qed.

Lemma mod4_of (n q r : nat) :
  (n = 4 * q + r)%nat -> (r < 4)%nat -> (n mod 4 = r)%nat.
Proof.
  intros -> Hr. rewrite Nat.add_comm, Nat.mul_comm, Nat.Div0.mod_add.
  apply Nat.mod_small, Hr.
Qed.

Lemma mapM_standardChars sextets :
  Forall (fun s => s < 64) sextets ->
  mapM sextetOf (List.map standardChar sextets) = Some sextets.
Proof.
  intros Hs. apply mapM_Some_2.
  induction Hs as [|s sextets Hlt _ IH]; simpl; constructor; [|exact IH].
  apply (standardChar_facts s Hlt).
Qed.

(** [atob] on standard characters without padding. *)
Lemma atob_standardChars sextets :
  Forall (fun s => s < 64) sextets ->
  (length sextets mod 4 <> 1)%nat ->
  atob (List.map standardChar sextets) = Some (decodeSextets sextets).
Proof.
  intros Hs Hlen. unfold atob.
  pose proof (filter_keeps_encoded sextets [] Hs (Forall_nil_2 _)) as Hf.
  rewrite !app_nil_r in Hf. rewrite Hf.
  rewrite removePadding_none by (apply standardChars_no_padding, Hs).
  rewrite length_map.
  destruct (length sextets mod 4 =? 1)%nat eqn:H1.
  - apply Nat.eqb_eq in H1. contradiction.
  - rewrite mapM_standardChars by exact Hs. reflexivity.
Qed.

Lemma atob_encoded (padded : bool) bytes :
  Forall (fun b => b < 256) bytes ->
  atob (List.map standardChar (encodeSextets bytes)
        ++ (if padded then base64Padding bytes else @nil N))
  = Some bytes.
Proof.
  intros Hb. pose proof (encodeSextets_bound bytes Hb) as Hs.
  rewrite <- (decode_encode_sextets bytes Hb) at 3.
  destruct (encoding_length bytes) as [q Hcases].
  assert (Hplain : atob (List.map standardChar (encodeSextets bytes))
                   = Some (decodeSextets (encodeSextets bytes))).
  { apply atob_standardChars; [exact Hs|].
    destruct Hcases as [[_ [Hl | [Hl | Hl]]] | [[_ Hl] | [_ Hl]]];
      [rewrite (mod4_of _ q 0) by lia | rewrite (mod4_of _ q 2) by lia
       | rewrite (mod4_of _ q 3) by lia | rewrite (mod4_of _ q 3) by lia
       | rewrite (mod4_of _ q 2) by lia]; lia. }
  destruct padded; [|rewrite app_nil_r; exact Hplain].
  destruct Hcases as [[Hp _] | [[Hp Hl] | [Hp Hl]]]; rewrite Hp.
  - rewrite app_nil_r. exact Hplain.
  - unfold atob.
    rewrite (filter_keeps_encoded _ [61] Hs) by (repeat constructor).
    rewrite removePadding_one.
    + fold (atob (List.map standardChar (encodeSextets bytes))) in Hplain.
      unfold atob in Hplain.
      pose proof (filter_keeps_encoded (encodeSextets bytes) [] Hs (Forall_nil_2 _)) as Hf.
      rewrite !app_nil_r in Hf. rewrite Hf in Hplain.
      rewrite removePadding_none in Hplain by (apply standardChars_no_padding, Hs).
      exact Hplain.
    + apply standardChars_no_padding, Hs.
    + intros Hnil. apply (f_equal (@length N)) in Hnil.
      rewrite length_map, Hl in Hnil. simpl in Hnil. lia.
    + rewrite length_app, length_map, Hl. cbn [length].
      apply (mod4_of _ (S q) 0); lia.
  - unfold atob.
    rewrite (filter_keeps_encoded _ [61; 61] Hs) by (repeat constructor).
    rewrite removePadding_two.
    + unfold atob in Hplain.
      pose proof (filter_keeps_encoded (encodeSextets bytes) [] Hs (Forall_nil_2 _)) as Hf.
      rewrite !app_nil_r in Hf. rewrite Hf in Hplain.
      rewrite removePadding_none in Hplain by (apply standardChars_no_padding, Hs).
      exact Hplain.
    + rewrite length_app, length_map, Hl. cbn [length].
      apply (mod4_of _ (S q) 0); lia.
Qed.

Lemma base64Padding_padding bytes : Forall (fun c => c = 61) (base64Padding bytes).
Proof.
  induction bytes as [| a | a b | a b c rest IH] using list_ind3;
    simpl; repeat constructor. exact IH.
Qed.

(** X16. Round trip: [decodeBase64] gives back every sequence of bytes from
    its base64 encoding in the URL-safe alphabet, with or without padding. *)
Theorem decodeBase64_base64url (padded : bool) (bytes : list N) :
  Forall (fun b => b < 256) bytes ->
  decodeBase64 (base64url padded bytes) = bytes.
Proof.
  intros Hb. unfold decodeBase64, base64url.
  rewrite replace_encoded
    by (destruct padded; [apply base64Padding_padding | constructor]).
  rewrite (atob_encoded padded bytes Hb). reflexivity.
Qed.

(** The bytes 251, 255, 191, 62, whose encoding uses both URL-safe signs. *)
Lemma decodeBase64_base64url_witness :
  Forall (fun b => b < 256) [251; 255; 191; 62]
  /\ base64url true [251; 255; 191; 62] = js "-_-_Pg=="
  /\ decodeBase64 (base64url true [251; 255; 191; 62]) = [251; 255; 191; 62].
Proof.
  assert (Hb : Forall (fun b => b < 256) [251; 255; 191; 62]) by (repeat constructor).
  split; [exact Hb|]. split; [reflexivity|].
  apply (decodeBase64_base64url true _ Hb).
Defined.

Lemma utf8_bytes text :
  Forall (fun c => isAsciiOrRupee c = true) text -> Forall (fun b => b < 256) (utf8 text).
Proof.
  induction 1 as [|c text Hc _ IH]; [constructor|].
  unfold utf8. cbn [flat_map]. fold (utf8 text).
  unfold isAsciiOrRupee in Hc.
  destruct (c =? 8377) eqn:Hr.
  - repeat (constructor; [lia|]). exact IH.
  - rewrite orb_false_r in Hc. apply N.ltb_lt in Hc. constructor; [lia|exact IH].
Qed.

Lemma normalize_utf8 text :
  Forall (fun c => isAsciiOrRupee c = true) text ->
  normalizeCurrencySymbols (utf8 text) = text.
Proof.
  induction 1 as [|c text Hc _ IH]; [reflexivity|].
  unfold utf8. cbn [flat_map]. fold (utf8 text).
  unfold isAsciiOrRupee in Hc.
  destruct (c =? 8377) eqn:Hr.
  - apply N.eqb_eq in Hr. subst c. cbn [app normalizeCurrencySymbols].
    change ((226 =? 226) && (130 =? 130) && (185 =? 185)) with true. cbv iota.
    rewrite IH. reflexivity.
  - rewrite orb_false_r in Hc. apply N.ltb_lt in Hc. cbn [app].
    assert (Hne : (c =? 226) = false) by (apply N.eqb_neq; lia).
    cbn [normalizeCurrencySymbols]. rewrite Hne. cbn [andb].
    destruct (utf8 text) as [|c1 [|c2 rest']] eqn:Hu.
    + rewrite <- IH. reflexivity.
    + rewrite <- IH. reflexivity.
    + rewrite <- IH. reflexivity.
Qed.

(** X17. A body of ASCII characters and rupee signs sent as UTF-8 comes out
    of [decodeBase64] with three code units for every rupee sign, and
    [normalizeCurrencySymbols] restores the text. *)
Theorem normalize_decoded_utf8 (padded : bool) (text : list N) :
  Forall (fun c => isAsciiOrRupee c = true) text ->
  decodeBase64 (base64url padded (utf8 text)) = utf8 text
  /\ normalizeCurrencySymbols (decodeBase64 (base64url padded (utf8 text))) = text.
Proof.
  intros Ht.
  assert (Hdecoded : decodeBase64 (base64url padded (utf8 text)) = utf8 text).
  { unfold decodeBase64, base64url.
    rewrite replace_encoded
      by (destruct padded; [apply base64Padding_padding | constructor]).
    rewrite (atob_encoded padded (utf8 text) (utf8_bytes text Ht)). reflexivity. }
  rewrite Hdecoded. split; [reflexivity|]. apply normalize_utf8, Ht.
Qed.

Lemma normalize_decoded_utf8_witness :
  Forall (fun c => isAsciiOrRupee c = true) (js "Due: " ++ [0x20B9] ++ js "1,200")
  /\ decodeBase64 (base64url false (utf8 (js "Due: " ++ [0x20B9] ++ js "1,200")))
     = js "Due: " ++ [0xE2; 0x82; 0xB9] ++ js "1,200"
  /\ normalizeCurrencySymbols
       (decodeBase64 (base64url false (utf8 (js "Due: " ++ [0x20B9] ++ js "1,200"))))
     = js "Due: " ++ [0x20B9] ++ js "1,200".
Proof.
  assert (Ht : Forall (fun c => isAsciiOrRupee c = true)
                 (js "Due: " ++ [0x20B9] ++ js "1,200"))
    by (apply List.Forall_forall, (forallb_forall isAsciiOrRupee); reflexivity).
  split; [exact Ht|].
  apply (normalize_decoded_utf8 false _ Ht).
Defined.

Lemma removePadding_keeps c data :
  c <> 61 -> c ∈ data -> c ∈ removePadding data.
Proof.
  intros Hc Hin. unfold removePadding.
  destruct (length data mod 4 =? 0)%nat; [|exact Hin].
  rewrite <- (rev_involutive data) in Hin.
  destruct (rev data) as [|c1 [|c2 r]] eqn:Hrev.
  - rewrite <- (rev_involutive data), Hrev. exact Hin.
  - destruct (c1 =? 61) eqn:H1.
    + apply N.eqb_eq in H1. subst c1. simpl in Hin.
      apply list_elem_of_singleton in Hin. contradiction.
    + rewrite <- (rev_involutive data), Hrev. exact Hin.
  - destruct (c1 =? 61) eqn:H1.
    + apply N.eqb_eq in H1. subst c1.
      change (rev (61 :: c2 :: r)) with (rev (c2 :: r) ++ [61]) in Hin.
      apply elem_of_app in Hin as [Hin | Hin];
        [|apply list_elem_of_singleton in Hin; contradiction].
      destruct (c2 =? 61) eqn:H2; [|exact Hin].
      apply N.eqb_eq in H2. subst c2.
      change (rev (61 :: r)) with (rev r ++ [61]) in Hin.
      apply elem_of_app in Hin as [Hin | Hin];
        [exact Hin|apply list_elem_of_singleton in Hin; contradiction].
    + rewrite <- (rev_involutive data), Hrev. exact Hin.
Qed.

(** X18. One character outside the two alphabets, the padding and the ASCII
    white space makes [decodeBase64] return the empty string, whatever the
    rest of the text. *)
Theorem decodeBase64_invalid_character (c : N) (encoded : list N) :
  isBase64Input c = false -> c ∈ encoded -> decodeBase64 encoded = [].
Proof.
  intros Hc Hin. unfold isBase64Input in Hc.
  repeat (apply orb_false_iff in Hc as [Hc ?]).
  assert (Hsext : sextetOf c = None).
  { unfold sextetOf.
    repeat match goal with H : _ = false |- _ => rewrite H; clear H end.
    reflexivity. }
  unfold decodeBase64.
  assert (Hin' : c ∈ replaceChar 95 47 (replaceChar 45 43 encoded)).
  { unfold replaceChar. rewrite List.map_map.
    apply list_elem_of_In, in_map_iff. exists c. split; [|apply list_elem_of_In, Hin].
    repeat match goal with H : _ = false |- _ => rewrite H; clear H end.
    reflexivity. }
  remember (replaceChar 95 47 (replaceChar 45 43 encoded)) as data eqn:Hdata.
  clear Hdata Hin. unfold atob.
  set (filtered := List.filter (fun c => negb (isAsciiWhitespace c)) data).
  assert (Hf : c ∈ removePadding filtered).
  { apply removePadding_keeps; [apply N.eqb_neq; assumption|].
    apply list_elem_of_In, filter_In. split; [apply list_elem_of_In, Hin'|].
    apply negb_true_iff. assumption. }
  destruct (length (removePadding filtered) mod 4 =? 1)%nat; [reflexivity|].
  assert (Hm : mapM sextetOf (removePadding filtered) = None).
  { apply mapM_None. apply Exists_exists. exists c. split; [exact Hf|exact Hsext]. }
  rewrite Hm. reflexivity.
Qed.

Lemma decodeBase64_invalid_character_witness :
  isBase64Input 46 = false /\ 46 ∈ js "SGVs.bG8"
  /\ decodeBase64 (js "SGVs.bG8") = [].
Proof.
  assert (Hin : 46 ∈ js "SGVs.bG8") by (apply list_elem_of_In; vm_compute; tauto).
  split; [reflexivity|]. split; [exact Hin|].
  apply (decodeBase64_invalid_character 46 _ eq_refl Hin).
Defined.

(** ** Email body extraction *)

Lemma Payload_ind_parts (P : Payload -> Prop) :
  (forall m d, P (mkPayload m d None)) ->
  (forall m d ps, Forall P ps -> P (mkPayload m d (Some ps))) ->
  forall payload, P payload.
Proof.
  intros Hnone Hsome.
  refine (fix IH (payload : Payload) : P payload :=
            match payload with
            | mkPayload m d None => Hnone m d
            | mkPayload m d (Some ps) =>
                Hsome m d ps
                  ((fix all (ps : list Payload) : Forall P ps :=
                      match ps with
                      | [] => List.Forall_nil P
                      | part :: ps' => @List.Forall_cons _ P part ps' (IH part) (all ps')
                      end) ps)
            end).
Qed.

(** Where the body comes from: the default text, or the decoding of a
    non-empty body data of the payload or of a part below it. *)
Lemma extractFromPayload_source payload :
  extractFromPayload payload = noReadableContent
  \/ exists data, data ∈ allBodyData payload /\ data <> []
                  /\ extractFromPayload payload = decodeBase64 data.
Proof.
  induction payload as [m d | m d ps IH] using Payload_ind_parts.
  - cbn [extractFromPayload mimeType bodyData allBodyData].
    destruct d as [[|c d]|]; cbn [truthy]; rewrite ?andb_false_r; cbv iota; auto.
    right. exists (c :: d). split; [left|]. split; [discriminate|].
    destruct (isTextType m); reflexivity.
  - assert (Hown : truthy d = true ->
              exists data, data ∈ allBodyData (mkPayload m d (Some ps)) /\ data <> []
                /\ decodedBody (mkPayload m d (Some ps)) = decodeBase64 data).
    { destruct d as [[|c d]|]; cbn [truthy]; try discriminate. intros _.
      exists (c :: d). split; [left|]. split; [discriminate|reflexivity]. }
    cbn [extractFromPayload]. cbn [mimeType bodyData] in *.
    destruct (isTextType m && truthy d) eqn:Htop.
    { right. apply Hown. apply andb_prop in Htop. apply Htop. }
    set (loop := fix loop (ps : list Payload) : option (list N) := _).
    assert (Hloop : forall body, loop ps = Some body ->
              exists data, data ∈ flat_map allBodyData ps /\ data <> []
                /\ body = decodeBase64 data).
    { clear Hown Htop. induction IH as [|part ps Hpart _ IHps]; intros body Hbody.
      - discriminate.
      - cbn [loop] in Hbody. fold loop in Hbody. cbn [flat_map].
        destruct (isTextType (mimeType part)) eqn:Htext.
        + destruct (truthy (bodyData part)) eqn:Hdata.
          * injection Hbody as <-. destruct part as [pm [[|c pd]|] pps];
              cbn [truthy bodyData] in Hdata; try discriminate.
            exists (c :: pd). split; [|split; [discriminate|reflexivity]].
            apply elem_of_app. left. left.
          * destruct (IHps body Hbody) as (data & Hin & Hne & Heq).
            exists data. split; [apply elem_of_app; right; exact Hin|auto].
        + destruct (isMultipart (mimeType part)) eqn:Hmulti.
          * destruct ((0 <? length (extractFromPayload part))%nat
                      && negb (bool_decide (extractFromPayload part = noBodyFound))
                      && negb (bool_decide (extractFromPayload part = noReadableContent)))
              eqn:Hinner.
            -- injection Hbody as <-.
               apply andb_prop in Hinner as [_ Hnot].
               apply negb_true_iff, bool_decide_eq_false_1 in Hnot.
               destruct Hpart as [Hpart | (data & Hin & Hne & Heq)]; [contradiction|].
               exists data. split; [apply elem_of_app; left; exact Hin|auto].
            -- destruct (IHps body Hbody) as (data & Hin & Hne & Heq).
               exists data. split; [apply elem_of_app; right; exact Hin|auto].
          * destruct (IHps body Hbody) as (data & Hin & Hne & Heq).
            exists data. split; [apply elem_of_app; right; exact Hin|auto]. }
    destruct (loop ps) as [body|] eqn:Hres.
    + right. destruct (Hloop body eq_refl) as (data & Hin & Hne & Heq).
      exists data. split; [|auto]. cbn [allBodyData]. apply elem_of_app. right. exact Hin.
    + destruct (truthy d) eqn:Hd; [right; apply Hown; reflexivity|left; reflexivity].
Qed.

(** X19. [extractEmailBody] never makes up content: it returns one of its
    two default texts, or the decoding of a non-empty body data found in the
    payload or in a part below it. *)
Theorem extractEmailBody_source (payload : option Payload) :
  (payload = None /\ extractEmailBody payload = noBodyFound)
  \/ extractEmailBody payload = noReadableContent
  \/ exists p data,
       payload = Some p /\ data ∈ allBodyData p /\ data <> []
       /\ extractEmailBody payload = decodeBase64 data.
Proof.
  destruct payload as [p|]; [|left; split; reflexivity].
  right. cbn [extractEmailBody].
  destruct (extractFromPayload_source p) as [Hdef | (data & Hin & Hne & Heq)];
    [left; exact Hdef|].
  right. exists p, data. auto.
Qed.

(** X20. A message in which no part, at any depth, has non-empty body data
    gives the text for no readable content. *)
Theorem extractEmailBody_no_data (p : Payload) :
  Forall (fun data => data = []) (allBodyData p) ->
  extractEmailBody (Some p) = noReadableContent.
Proof.
  intros Hall. cbn [extractEmailBody].
  destruct (extractFromPayload_source p) as [Hdef | (data & Hin & Hne & _)];
    [exact Hdef|].
  rewrite Forall_forall in Hall. destruct (Hne (Hall data Hin)).
Qed.

Lemma extractEmailBody_no_data_witness :
  Forall (fun data => data = [])
    (allBodyData (mkPayload (Some (js "multipart/mixed")) (Some [])
                    (Some [mkPayload (Some (js "text/plain")) (Some []) None;
                           mkPayload (Some (js "multipart/alternative")) None (Some [])])))
  /\ extractEmailBody
       (Some (mkPayload (Some (js "multipart/mixed")) (Some [])
                (Some [mkPayload (Some (js "text/plain")) (Some []) None;
                       mkPayload (Some (js "multipart/alternative")) None (Some [])])))
     = noReadableContent.
Proof.
  assert (Hall : Forall (fun data => data = [])
    (allBodyData (mkPayload (Some (js "multipart/mixed")) (Some [])
                    (Some [mkPayload (Some (js "text/plain")) (Some []) None;
                           mkPayload (Some (js "multipart/alternative")) None (Some [])]))))
    by (repeat constructor).
  split; [exact Hall|].
  apply (extractEmailBody_no_data _ Hall).
Defined.

(** X21. The first text part with data wins: when the payload itself is not
    a text with data and the parts before are passed over, the body is the
    decoding of that part, whatever parts follow. *)
Theorem extractEmailBody_first_text_part (m : option (list N)) (d : option (list N))
  (before after : list Payload) (part : Payload) :
  isTextType m && truthy d = false ->
  Forall (fun p => passedOver p = true) before ->
  isTextType (mimeType part) = true -> truthy (bodyData part) = true ->
  extractEmailBody (Some (mkPayload m d (Some (before ++ part :: after))))
  = decodedBody part.
Proof.
  intros Htop Hbefore Htext Hdata.
  cbn [extractEmailBody extractFromPayload mimeType bodyData]. rewrite Htop.
  set (loop := fix loop (ps : list Payload) : option (list N) := _).
  assert (Hloop : loop (before ++ part :: after) = Some (decodedBody part)).
  { induction Hbefore as [|p before Hp _ IH].
    - cbn [app loop]. rewrite Htext, Hdata. reflexivity.
    - cbn [app loop]. fold loop. unfold passedOver in Hp.
      apply andb_prop in Hp as [Hnot Hmulti].
      apply negb_true_iff in Hnot. apply negb_true_iff in Hmulti.
      rewrite Hmulti.
      destruct (isTextType (mimeType p)); [|exact IH].
      cbn [andb] in Hnot. rewrite Hnot. exact IH. }
  rewrite Hloop. reflexivity.
Qed.

(** A message with an attachment before its two alternatives. *)
Lemma extractEmailBody_first_text_part_witness :
  Forall (fun p => passedOver p = true)
    [mkPayload (Some (js "application/pdf")) (Some (js "JVBERi0")) None]
  /\ extractEmailBody (Some alternativeMessage) = js "Hi".
Proof.
  assert (Hbefore : Forall (fun p => passedOver p = true)
            [mkPayload (Some (js "application/pdf")) (Some (js "JVBERi0")) None])
    by (repeat constructor).
  split; [exact Hbefore|].
  change (js "Hi")
    with (decodedBody (mkPayload (Some (js "text/plain")) (Some (js "SGk")) None)).
  apply (extractEmailBody_first_text_part (Some (js "multipart/mixed")) None
           [mkPayload (Some (js "application/pdf")) (Some (js "JVBERi0")) None]
           [mkPayload (Some (js "text/html")) (Some (js "PGI-SGk8L2I-")) None]
           (mkPayload (Some (js "text/plain")) (Some (js "SGk")) None)
           eq_refl Hbefore eq_refl eq_refl).
Defined.

Lemma scanHeaders_snoc headers header :
  scanHeaders (headers ++ [header])
  = (if bool_decide (fst header = js "Subject") then snd header
     else fst (scanHeaders headers),
     if bool_decide (fst header = js "From") then snd header
     else snd (scanHeaders headers)).
Proof. unfold scanHeaders. rewrite fold_left_app. reflexivity. Qed.

Lemma lastHeader_snoc name headers header :
  lastHeader name (headers ++ [header])
  = if bool_decide (fst header = name) then snd header else lastHeader name headers.
Proof.
  unfold lastHeader. rewrite List.filter_app. cbn [List.filter].
  destruct (bool_decide (fst header = name)).
  - rewrite last_snoc. reflexivity.
  - rewrite app_nil_r. reflexivity.
Qed.

Lemma scanHeaders_last headers :
  scanHeaders headers = (lastHeader (js "Subject") headers, lastHeader (js "From") headers).
Proof.
  induction headers as [|header headers IH] using rev_ind; [reflexivity|].
  rewrite scanHeaders_snoc, !lastHeader_snoc, IH. reflexivity.
Qed.

(** X22. The subject and the sender of the details of a message are the
    values of its last header named exactly [Subject] and of its last header
    named exactly [From], and [Unknown] where there is none; the content is
    the extracted body. *)
Theorem emailDetailsOf_headers (headers : list (list N * list N)) (p : Payload) :
  emailDetailsOf (Some (Some headers, p))
  = {| EmailDetails.subject := lastHeader (js "Subject") headers;
       EmailDetails.content := extractEmailBody (Some p);
       EmailDetails.sender := lastHeader (js "From") headers |}.
Proof.
  unfold emailDetailsOf. rewrite scanHeaders_last. reflexivity.
Qed.

(** ** Completion consumer *)

Lemma accumulate_from start chunks :
  fold_left (fun curMessage curDelta =>
      if truthy curDelta then curMessage ++ default [] curDelta else curMessage)
    chunks start
  = start ++ concat (default [] <$> chunks).
Proof.
  revert start. induction chunks as [|chunk chunks IH]; intros start.
  - simpl. rewrite app_nil_r. reflexivity.
  - cbn [fold_left fmap list_fmap concat]. rewrite IH.
    destruct chunk as [[|c s]|]; cbn [truthy default]; cbn [app];
      rewrite ?app_nil_r, <- ?app_assoc; reflexivity.
Qed.

Lemma accumulate_concat chunks : accumulate chunks = concat (default [] <$> chunks).
Proof. unfold accumulate. rewrite accumulate_from. reflexivity. Qed.

(** X23. What is parsed of a reply depends on the text of the reply only and
    not on how the stream cuts it into chunks: chunks without content add
    nothing, and the trailing marker is found also when it spans chunks. *)
Theorem parseResponse_chunking (chunks chunks' : list (option (list N))) :
  concat (default [] <$> chunks) = concat (default [] <$> chunks') ->
  accumulate chunks = accumulate chunks'
  /\ parseResponse (accumulate chunks) = parseResponse (accumulate chunks').
Proof.
  intros Hsame. rewrite !accumulate_concat, Hsame. split; reflexivity.
Qed.

Lemma parseResponse_chunking_witness :
  concat (default [] <$> cutReply) = concat (default [] <$> wholeReply)
  /\ accumulate cutReply = accumulate wholeReply
  /\ parseResponse (accumulate cutReply) = parseResponse (accumulate wholeReply).
Proof.
  split; [reflexivity|].
  apply (parseResponse_chunking cutReply wholeReply). reflexivity.
Defined.

(** ** Engine readiness *)

(** The loop from a count of attempts on, with the engine unset: it ends with
    the first sleep during which the engine is loaded, or at ten attempts. *)
Lemma pollEngine_first_load env : forall fuel attempts trace,
  (attempts <= 10)%nat -> (10 - attempts <= fuel)%nat ->
  pollEngine fuel env false attempts trace
  = Some match find (loadedDuringSleep env) (seq attempts (10 - attempts)) with
         | Some k => (true, S k, trace ++ repeat (Sleep 1000) (S k - attempts))
         | None => (false, 10%nat, trace ++ repeat (Sleep 1000) (10 - attempts))
         end.
Proof.
  induction fuel as [|fuel IH]; intros attempts trace Hle Hfuel.
  - assert (attempts = 10%nat) as -> by lia. simpl. rewrite app_nil_r. reflexivity.
  - cbn [pollEngine]. destruct (attempts <? 10)%nat eqn:Hlt; cbn [negb andb].
    + apply Nat.ltb_lt in Hlt.
      replace (10 - attempts)%nat with (S (10 - S attempts)) by lia.
      cbn [seq find orb].
      destruct (loadedDuringSleep env attempts) eqn:Hload.
      * destruct fuel; cbn [pollEngine negb andb];
          replace (S attempts - attempts)%nat with 1%nat by lia; reflexivity.
      * rewrite IH by lia.
        destruct (find (loadedDuringSleep env) (seq (S attempts) (10 - S attempts)))
          as [k|] eqn:Hfind.
        -- apply find_some in Hfind as [Hin _]. apply in_seq in Hin.
           rewrite <- app_assoc.
           replace (S k - attempts)%nat with (S (S k - S attempts)) by lia.
           reflexivity.
        -- rewrite <- app_assoc. reflexivity.
    + apply Nat.ltb_ge in Hlt. assert (attempts = 10%nat) as -> by lia.
      simpl. rewrite app_nil_r. reflexivity.
Qed.

(** X24. Entered with the engine unset, the wait ends with the first of its
    ten sleeps during which the engine is loaded, and reports it ready
    without a re-initialization; only when the engine is loaded in none of
    the ten does it re-initialize, once, and the report is what that gave. *)
Theorem waitForEngine_first_load (fuel : nat) (env : EngineEnv) :
  (10 <= fuel)%nat ->
  waitForEngine fuel env false
  = Some match find (loadedDuringSleep env) (seq 0 10) with
         | Some k => (true, repeat (Sleep 1000) (S k) ++ [LogReady])
         | None =>
             (loadedByInitialize env,
              repeat (Sleep 1000) 10
              ++ [InitializeEngine;
                  if loadedByInitialize env then LogReady else LogFailed])
         end.
Proof.
  intros Hfuel. unfold waitForEngine.
  rewrite (pollEngine_first_load env fuel 0 []) by lia.
  change (10 - 0)%nat with 10%nat.
  destruct (find (loadedDuringSleep env) (seq 0 10)) as [k|].
  - rewrite Nat.sub_0_r. reflexivity.
  - cbn [negb]. rewrite <- app_assoc.
    destruct (loadedByInitialize env); reflexivity.
Qed.

Lemma waitForEngine_first_load_witness :
  (10 <= 12)%nat
  /\ waitForEngine 12 {| loadedDuringSleep := fun k => (3 <=? k)%nat;
                         loadedByInitialize := false |} false
     = Some (true, repeat (Sleep 1000) 4 ++ [LogReady]).
Proof.
  split; [lia|].
  apply (waitForEngine_first_load 12
           {| loadedDuringSleep := fun k => (3 <=? k)%nat; loadedByInitialize := false |}).
  lia.
Defined.

(** ** Amounts that are not numbers *)

(** X25. Amounts that [parseFloat] cannot read all match each other: a
    payment whose amount does not begin with a number marks every record
    whose amount does not begin with a number as paid. *)
Theorem updateMatchingRecord_unreadable_amounts (amount : list N) (store : ObjectStore)
  (key : N) (summary : PaymentSummary) :
  reachable store ->
  parseFloat amount = NaN ->
  records store !! key = Some summary ->
  parseFloat (totalAmountDue summary) = NaN ->
  paymentStatus <$> records (updateMatchingRecord amount store) !! key = Some (js "paid").
Proof.
  intros Hreach Hamount Hkey Hsummary. apply reachable_ok in Hreach as [Hwf _].
  destruct (updateMatchingRecord_records amount store Hwf) as [_ Hrec].
  rewrite Hrec, lookup_fmap, Hkey. cbn [fmap option_fmap option_map].
  rewrite reconciled_matches. unfold amountMatches, formatAmount.
  rewrite Hamount, Hsummary.
  rewrite bool_decide_eq_true_2 by reflexivity. reflexivity.
Qed.

(** The bill of 1200 rupees after a payment of 5 dollars. *)
Lemma updateMatchingRecord_unreadable_amounts_witness :
  reachable rupeeStore
  /\ parseFloat (js "$5") = NaN
  /\ (totalAmountDue <$> records rupeeStore !! 1) = Some (0x20B9 :: js "1200.00")
  /\ parseFloat (0x20B9 :: js "1200.00") = NaN
  /\ paymentStatus <$> records (updateMatchingRecord (js "$5") rupeeStore) !! 1
     = Some (js "paid").
Proof.
  assert (Hreach : reachable rupeeStore) by (eexists; reflexivity).
  split; [exact Hreach|]. split; [reflexivity|].
  split; [vm_compute; reflexivity|]. split; [reflexivity|].
  apply (updateMatchingRecord_unreadable_amounts (js "$5") rupeeStore 1
           (newSummary rupeeBill (js "2025-06-01T00:00:00.000Z") 1) Hreach).
  - reflexivity.
  - vm_compute. reflexivity.
  - reflexivity.
Defined.
